(** * Mython: lexer and evaluator, embedded and verified

    A shallow embedding of the Mython interpreter core: the indentation
    sensitive lexer ([parse::Lexer]), the runtime value model
    ([runtime::ObjectHolder], [runtime::Class], [runtime::ClassInstance],
    [runtime::Equal], [runtime::Less]) and the statement evaluator
    ([ast::*::Execute]).

    Conventions.
    - [char] is the signed 8-bit type of the x86-64 ABI: a byte read from the
      stream is an [ascii]; [std::istream::peek]/[get] return an [int_type],
      modelled as [option ascii] with [None] standing for [EOF] (-1).
      Narrowing [EOF] to [char] gives the byte 255, and a [char] compares
      equal to [EOF] exactly when it is that byte.
    - [<cctype>] classification is that of the C locale.
    - C++ exceptions are explicit outcomes; undefined behaviour (null
      dereference, [top] of an empty stack) is the outcome [Undefined].
    - Loops and recursion that need not terminate take a fuel argument. *)

From Stdlib Require Import ZArith List Ascii String Bool Lia.
From stdpp Require Import gmap strings pretty.
Import ListNotations.

Local Open Scope Z_scope.

(* ===================================================================== *)
(** * namespace parse *)
(* ===================================================================== *)

Module parse.

(** ** Tokens (lexer.h) *)

Module token_type.
Inductive Token : Type :=
| Number (value : Z)
| Id (value : string)
| Char (value : ascii)
| String (value : string)
| Class | Return | If | Else | Def | Newline | Print | Indent | Dedent
| And | Or | Not | Eq | NotEq | LessOrEq | GreaterOrEq
| None | True | False | Eof.
End token_type.

Abbreviation Token := token_type.Token.

(** [Token::Is<T>()] for the unvalued alternatives the lexer inspects. *)
Definition Is_Newline (t : Token) : bool :=
  match t with token_type.Newline => true | _ => false end.
Definition Is_Eof (t : Token) : bool :=
  match t with token_type.Eof => true | _ => false end.
Definition Is_Dedent (t : Token) : bool :=
  match t with token_type.Dedent => true | _ => false end.
Definition Is_Indent (t : Token) : bool :=
  match t with token_type.Indent => true | _ => false end.

(** ** Outcome of a lexer operation *)

Inductive Result (A : Type) : Type :=
| Ok (a : A)
| LexerError (what : string)     (* parse::LexerError *)
| StdError (what : string)       (* any other std exception (std::stoi) *)
| Undefined                      (* undefined behaviour *)
| OutOfFuel.                     (* the loop has not finished yet *)
Arguments Ok {A} a.
Arguments LexerError {A} what.
Arguments StdError {A} what.
Arguments Undefined {A}.
Arguments OutOfFuel {A}.

Definition bind {A B} (r : Result A) (k : A -> Result B) : Result B :=
  match r with
  | Ok a => k a
  | LexerError w => LexerError w
  | StdError w => StdError w
  | Undefined => Undefined
  | OutOfFuel => OutOfFuel
  end.

(** ** The input stream *)

Definition istream := list ascii.
Definition int_type := option ascii.          (* [None] is EOF *)

Definition peek (input : istream) : int_type := head input.
Definition ignore (input : istream) : istream := tl input.
Definition get (input : istream) : int_type * istream := (head input, tl input).

Definition EOF_char : ascii := "255"%char.
Definition to_char (i : int_type) : ascii :=
  match i with Some c => c | Datatypes.None => EOF_char end.

Definition nl : ascii := "010"%char.
Definition tab : ascii := "009"%char.
Definition space : ascii := " "%char.
Definition hash : ascii := "#"%char.
Definition squote : ascii := "'"%char.
Definition dquote : ascii := "034"%char.
Definition backslash : ascii := "092"%char.

Definition peek_is (input : istream) (c : ascii) : bool :=
  match peek input with Some d => Ascii.eqb d c | Datatypes.None => false end.

Definition isdigit (c : ascii) : bool :=
  let n := N_of_ascii c in ((48 <=? n) && (n <=? 57))%N.
Definition isalpha (c : ascii) : bool :=
  let n := N_of_ascii c in
  (((65 <=? n) && (n <=? 90)) || ((97 <=? n) && (n <=? 122)))%N.

(** ** Lexer state (lexer.h) *)

Definition SIZE_MAX1 : Z := 2 ^ 64.            (* size_t wraps modulo this *)
Definition to_uint8 (n : Z) : Z := n mod 256.
Definition INT_MAX : Z := 2147483647.

Record Lexer : Type := mkLexer {
  input_ : istream;
  current_indent_size_ : Z;        (* size_t *)
  indent_sizes_ : list Z;          (* std::stack<uint8_t>, top at the head *)
  tokens_ : list Token             (* std::deque<Token>, back at the end *)
}.

Definition CurrentToken (tokens : list Token) : option Token :=
  last tokens.

Definition current_is (p : Token -> bool) (tokens : list Token) : bool :=
  match CurrentToken tokens with Some t => p t | Datatypes.None => false end.

Definition empty (tokens : list Token) : bool :=
  match tokens with [] => true | _ => false end.

Definition keywords (s : string) : option Token :=
  if String.eqb s "class" then Some token_type.Class
  else if String.eqb s "return" then Some token_type.Return
  else if String.eqb s "if" then Some token_type.If
  else if String.eqb s "else" then Some token_type.Else
  else if String.eqb s "def" then Some token_type.Def
  else if String.eqb s "print" then Some token_type.Print
  else if String.eqb s "and" then Some token_type.And
  else if String.eqb s "or" then Some token_type.Or
  else if String.eqb s "not" then Some token_type.Not
  else if String.eqb s "None" then Some token_type.None
  else if String.eqb s "True" then Some token_type.True
  else if String.eqb s "False" then Some token_type.False
  else Datatypes.None.

Definition comparison_lexems (s : string) : option Token :=
  if String.eqb s "==" then Some token_type.Eq
  else if String.eqb s "!=" then Some token_type.NotEq
  else if String.eqb s "<=" then Some token_type.LessOrEq
  else if String.eqb s ">=" then Some token_type.GreaterOrEq
  else Datatypes.None.

(** ** Lexer::MoveToNextToken *)

(** [for (space_count = 0; input_.peek() == ' '; ++space_count) input_.ignore();] *)
Fixpoint skip_spaces (input : istream) (space_count : Z) : Z * istream :=
  match input with
  | c :: rest =>
      if Ascii.eqb c space
      then skip_spaces rest ((space_count + 1) mod SIZE_MAX1)
      else (space_count, input)
  | [] => (space_count, input)
  end.

(** [while (input_.peek() != '\n' && input_.peek() != EOF) input_.ignore();] *)
Fixpoint skip_comment (input : istream) : istream :=
  match input with
  | c :: rest => if Ascii.eqb c nl then input else skip_comment rest
  | [] => []
  end.

(** The [while (true)] loop; [skip_blank] is [tokens_.empty() || is_new_line].
    Every iteration that continues has consumed a line feed. *)
Fixpoint MoveToNextToken_loop (fuel : nat) (skip_blank : bool) (input : istream)
  : option (Z * istream) :=
  match fuel with
  | O => Datatypes.None
  | S fuel' =>
      let '(space_count, in1) := skip_spaces input 0 in
      let in2 := if peek_is in1 hash then skip_comment in1 else in1 in
      if peek_is in2 nl && skip_blank
      then MoveToNextToken_loop fuel' skip_blank (ignore in2)
      else Some (space_count, in2)
  end.

Definition MoveToNextToken (lx : Lexer) : Result Lexer :=
  let is_new_line := negb (empty (tokens_ lx)) && current_is Is_Newline (tokens_ lx) in
  match MoveToNextToken_loop (S (length (input_ lx)))
                             (empty (tokens_ lx) || is_new_line) (input_ lx) with
  | Datatypes.None => OutOfFuel
  | Some (space_count, input') =>
      if is_new_line && negb (space_count mod 2 =? 0)
      then LexerError "indent size must be even"
      else if is_new_line
      then match indent_sizes_ lx with
           | [] => Undefined
           | top :: _ =>
               if negb (space_count =? top)
               then Ok (mkLexer input' space_count (indent_sizes_ lx) (tokens_ lx))
               else Ok (mkLexer input' (current_indent_size_ lx)
                                (indent_sizes_ lx) (tokens_ lx))
           end
      else Ok (mkLexer input' (current_indent_size_ lx) (indent_sizes_ lx) (tokens_ lx))
  end.

(** ** The token parsers *)

(** Lexer::ParseIndent: returns the token and the new stack. *)
Definition ParseIndent (current_indent_size : Z) (indent_sizes : list Z)
  : Result (Token * list Z) :=
  match indent_sizes with
  | [] => Undefined
  | top :: below =>
      if current_indent_size >? top
      then Ok (token_type.Indent, to_uint8 current_indent_size :: indent_sizes)
      else Ok (token_type.Dedent, below)
  end.

(** Lexer::ParseEof *)
Definition ParseEof (tokens : list Token) : Token :=
  if empty tokens || current_is Is_Newline tokens
     || current_is Is_Eof tokens || current_is Is_Dedent tokens
  then token_type.Eof
  else token_type.Newline.

(** [while (std::isdigit(input_.peek())) ss << input_.get();] with the
    decimal value of the digits read so far as accumulator. *)
Fixpoint read_digits (input : istream) (acc : Z) : Z * istream :=
  match input with
  | c :: rest =>
      if isdigit c
      then read_digits rest (10 * acc + (Z.of_N (N_of_ascii c) - 48))
      else (acc, input)
  | [] => (acc, input)
  end.

(** Lexer::ParseDigit; [std::stoi] throws [std::out_of_range] past [INT_MAX]. *)
Definition ParseDigit (input : istream) : Result (Token * istream) :=
  let '(v, rest) := read_digits input 0 in
  if v >? INT_MAX then StdError "stoi" else Ok (token_type.Number v, rest).

Fixpoint read_identifier (input : istream) : list ascii * istream :=
  match input with
  | c :: rest =>
      if isalpha c || isdigit c || Ascii.eqb c "_"%char
      then let '(id, rest') := read_identifier rest in (c :: id, rest')
      else ([], input)
  | [] => ([], input)
  end.

(** Lexer::ParseIdentifier *)
Definition ParseIdentifier (input : istream) : Token * istream :=
  let '(chars, rest) := read_identifier input in
  let identifier := string_of_list_ascii chars in
  match keywords identifier with
  | Some t => (t, rest)
  | Datatypes.None => (token_type.Id identifier, rest)
  end.

(** The body of the [for] loop of Lexer::ParseString: [str] holds the
    characters pushed so far; each unit of fuel is one iteration. *)
Fixpoint ParseString_loop (fuel : nat) (quote : ascii) (input : istream)
                          (str : list ascii) : Result (Token * istream) :=
  match fuel with
  | O => OutOfFuel
  | S fuel' =>
      let '(i, in1) := get input in
      let curr := to_char i in
      if Ascii.eqb curr quote
      then Ok (token_type.String (string_of_list_ascii str), in1)
      else if Ascii.eqb curr backslash
      then
        let '(j, in2) := get in1 in
        let next := to_char j in
        if Ascii.eqb next squote || Ascii.eqb next dquote
        then ParseString_loop fuel' quote in2 (str ++ [next])
        else if Ascii.eqb next "n"%char
        then ParseString_loop fuel' quote in2 (str ++ [nl])
        else if Ascii.eqb next "t"%char
        then ParseString_loop fuel' quote in2 (str ++ [tab])
        else ParseString_loop fuel' quote in2 (str ++ [curr; next])
      else ParseString_loop fuel' quote in1 (str ++ [curr])
  end.

(** Lexer::ParseString *)
Definition ParseString (fuel : nat) (input : istream) : Result (Token * istream) :=
  let '(q, in1) := get input in
  ParseString_loop fuel (to_char q) in1 [].

(** Lexer::ParseLexem *)
Definition ParseLexem (input : istream) : Result (Token * istream) :=
  let '(i, in1) := get input in
  let c := to_char i in
  if peek_is in1 "="%char
  then
    let '(j, in2) := get in1 in
    match comparison_lexems (string_of_list_ascii [c; to_char j]) with
    | Some t => Ok (t, in2)
    | Datatypes.None => StdError "unordered_map::at"
    end
  else Ok (token_type.Char c, in1).

(** Lexer::ParseNewLine *)
Definition ParseNewLine (input : istream) : Token * istream :=
  (token_type.Newline, ignore input).

(** ** Lexer::NextToken *)

Definition push_back (lx : Lexer) (input' : istream) (t : Token) : Lexer :=
  mkLexer input' (current_indent_size_ lx) (indent_sizes_ lx) (tokens_ lx ++ [t]).

Definition NextToken (fuel : nat) (lx0 : Lexer) : Result Lexer :=
  bind (MoveToNextToken lx0) (fun lx =>
  let c := to_char (peek (input_ lx)) in
  match indent_sizes_ lx with
  | [] => Undefined
  | top :: _ =>
      if negb (current_indent_size_ lx =? top)
      then bind (ParseIndent (current_indent_size_ lx) (indent_sizes_ lx))
             (fun '(t, stack) =>
                Ok (mkLexer (input_ lx) (current_indent_size_ lx) stack
                            (tokens_ lx ++ [t])))
      else if isdigit c
      then bind (ParseDigit (input_ lx)) (fun '(t, rest) => Ok (push_back lx rest t))
      else if isalpha c || Ascii.eqb c "_"%char
      then let '(t, rest) := ParseIdentifier (input_ lx) in Ok (push_back lx rest t)
      else if Ascii.eqb c squote || Ascii.eqb c dquote
      then bind (ParseString fuel (input_ lx))
             (fun '(t, rest) => Ok (push_back lx rest t))
      else if Ascii.eqb c "!"%char || Ascii.eqb c "<"%char
              || Ascii.eqb c ">"%char || Ascii.eqb c "="%char
      then bind (ParseLexem (input_ lx)) (fun '(t, rest) => Ok (push_back lx rest t))
      else if Ascii.eqb c nl
      then let '(t, rest) := ParseNewLine (input_ lx) in Ok (push_back lx rest t)
      else if Ascii.eqb c EOF_char
      then Ok (push_back lx (input_ lx) (ParseEof (tokens_ lx)))
      else Ok (push_back lx (ignore (input_ lx)) (token_type.Char c))
  end).

(** Lexer::Lexer: push the initial indent and read the first token. *)
Definition Lexer_new (fuel : nat) (input : istream) : Result Lexer :=
  NextToken fuel (mkLexer input 0 [0] []).

(** The lexer after construction and [n] further calls of [NextToken]. *)
Fixpoint Lexer_run (fuel n : nat) (input : istream) : Result Lexer :=
  match n with
  | O => Lexer_new fuel input
  | S n' => bind (Lexer_run fuel n' input) (NextToken fuel)
  end.

Definition count_tokens (p : Token -> bool) (tokens : list Token) : nat :=
  length (List.filter p tokens).

(** The tokens emitted, if the lexer got that far. *)
Definition tokens_of (r : Result Lexer) : list Token :=
  match r with Ok lx => tokens_ lx | _ => [] end.

(** No [Newline] directly follows a [Newline]. *)
Fixpoint no_double_newline (tokens : list Token) : bool :=
  match tokens with
  | t1 :: rest =>
      match rest with
      | t2 :: _ => negb (Is_Newline t1 && Is_Newline t2) && no_double_newline rest
      | [] => true
      end
  | [] => true
  end.

(** The tokens that carry layout rather than content. *)
Definition is_layout (t : Token) : bool :=
  Is_Newline t || Is_Indent t || Is_Dedent t || Is_Eof t.

(** The stream does not start with a [Newline]. *)
Definition first_not_newline (tokens : list Token) : bool :=
  match tokens with
  | t :: _ => negb (Is_Newline t)
  | [] => true
  end.

(** ** Token comparison (lexer.cpp) *)

(** [std::variant::index()], in the order of [TokenBase]. *)
Definition index (t : Token) : nat :=
  match t with
  | token_type.Number _ => 0 | token_type.Id _ => 1 | token_type.Char _ => 2
  | token_type.String _ => 3 | token_type.Class => 4 | token_type.Return => 5
  | token_type.If => 6 | token_type.Else => 7 | token_type.Def => 8
  | token_type.Newline => 9 | token_type.Print => 10 | token_type.Indent => 11
  | token_type.Dedent => 12 | token_type.And => 13 | token_type.Or => 14
  | token_type.Not => 15 | token_type.Eq => 16 | token_type.NotEq => 17
  | token_type.LessOrEq => 18 | token_type.GreaterOrEq => 19
  | token_type.None => 20 | token_type.True => 21 | token_type.False => 22
  | token_type.Eof => 23
  end%nat.

(** [operator==(const Token&, const Token&)]; where the indices agree the
    [As<T>()] of the right operand cannot throw. *)
Definition Token_eq (lhs rhs : Token) : bool :=
  if negb (Nat.eqb (index lhs) (index rhs)) then false
  else match lhs, rhs with
       | token_type.Char l, token_type.Char r => Ascii.eqb l r
       | token_type.Number l, token_type.Number r => l =? r
       | token_type.String l, token_type.String r => String.eqb l r
       | token_type.Id l, token_type.Id r => String.eqb l r
       | _, _ => true
       end.

(** [operator!=(const Token&, const Token&)] *)
Definition Token_ne (lhs rhs : Token) : bool := negb (Token_eq lhs rhs).

(** ** Further vocabulary for the lexer's properties *)

Definition Is_indentation (t : Token) : bool := Is_Indent t || Is_Dedent t.

(** [current_indent_size_ == indent_sizes_.top()] *)
Definition resolved (lx : Lexer) : bool :=
  match indent_sizes_ lx with
  | top :: _ => current_indent_size_ lx =? top
  | [] => false
  end.

(** The indent stack still stands on the width pushed by the constructor,
    and the current indent is a size. *)
Definition rooted (lx : Lexer) : Prop :=
  0 <= current_indent_size_ lx /\ exists above, indent_sizes_ lx = above ++ [0].

(** Every [Indent] or [Dedent] comes first after a [Newline] or after
    another [Indent] or [Dedent]; [prev] is the token before [tokens]. *)
Fixpoint indentation_at_line_start (prev : option Token) (tokens : list Token) : bool :=
  match tokens with
  | [] => true
  | t :: rest =>
      (negb (Is_indentation t)
       || match prev with
          | Some p => Is_Newline p || Is_indentation p
          | Datatypes.None => false
          end)
      && indentation_at_line_start (Some t) rest
  end.

(** The characters an identifier is made of. *)
Definition identifier_char (c : ascii) : bool :=
  isalpha c || isdigit c || Ascii.eqb c "_"%char.

Definition starts_with (p : ascii -> bool) (input : istream) : bool :=
  match input with c :: _ => p c | [] => false end.

(** How a string is written between quotes so that [ParseString] reads it
    back: quotes, line feeds and tabs are escaped. *)
Definition escape_char (c : ascii) : list ascii :=
  if Ascii.eqb c squote || Ascii.eqb c dquote then [backslash; c]
  else if Ascii.eqb c nl then [backslash; "n"%char]
  else if Ascii.eqb c tab then [backslash; "t"%char]
  else [c].

Definition escape (s : list ascii) : list ascii := flat_map escape_char s.

(** A line that holds only blanks and possibly a comment, without its
    line feed. *)
Definition blank_line (line : list ascii) : Prop :=
  exists k comment,
    line = repeat space k ++ comment /\
    (comment = [] \/ exists body, comment = hash :: body /\ ~ In nl body).

(** Every token that is a [p] comes right after what [q] accepts ([q] is
    asked [None] for the first token); [prev] is the token before
    [tokens]. *)
Fixpoint each_follows (p : Token -> bool) (q : option Token -> bool)
                      (prev : option Token) (tokens : list Token) : bool :=
  match tokens with
  | [] => true
  | t :: rest => (negb (p t) || q prev) && each_follows p q (Some t) rest
  end.

(** Where an [Eof] may stand: first, or after a [Newline], a [Dedent] or
    an [Eof]. *)
Definition line_is_over (prev : option Token) : bool :=
  match prev with
  | Some t => Is_Newline t || Is_Dedent t || Is_Eof t
  | Datatypes.None => true
  end.

(** Whether the body of a string literal, scanned as [ParseString] scans
    it, comes to a quote that is not escaped. *)
Fixpoint closes (quote : ascii) (body : list ascii) : bool :=
  match body with
  | [] => false
  | c :: rest =>
      if Ascii.eqb c quote then true
      else if Ascii.eqb c backslash
      then match rest with
           | [] => false
           | _ :: rest' => closes quote rest'
           end
      else closes quote rest
  end.

(** [k] calls of [NextToken] in a row. *)
Fixpoint NextToken_times (fuel k : nat) (lx : Lexer) : Result Lexer :=
  match k with
  | O => Ok lx
  | S k' => bind (NextToken fuel lx) (NextToken_times fuel k')
  end.

Definition with_input (lx : Lexer) (input : istream) : Lexer :=
  mkLexer input (current_indent_size_ lx) (indent_sizes_ lx) (tokens_ lx).

(** The decimal digits of a number, most significant first, as
    [operator<<] writes an [int] that is not negative. *)
Definition digit_char (d : Z) : ascii := ascii_of_N (Z.to_N (48 + d)).

Fixpoint decimal_go (fuel : nat) (n : Z) (acc : list ascii) : list ascii :=
  match fuel with
  | O => acc
  | S fuel' =>
      if n <? 10 then digit_char n :: acc
      else decimal_go fuel' (n / 10) (digit_char (n mod 10) :: acc)
  end.

Definition decimal (n : Z) : list ascii := decimal_go (S (Z.to_nat n)) n [].

End parse.

(* ===================================================================== *)
(** * namespace runtime *)
(* ===================================================================== *)

(** The syntax tree ([ast::Statement] is [runtime::Executable]) together
    with [runtime::Class] and [runtime::Method], which own method bodies.

    A [NewInstance] node embeds its [runtime::ClassInstance class_] member:
    [self] is the address of that object.  [Comparison] holds one of the
    two comparators defined in runtime.cpp. *)

Definition addr := nat.

#[local] Set Warnings "-register-all".

Inductive Comparator : Type := Equal_cmp | Less_cmp.

Inductive Statement : Type :=
| NumericConst (value : Z)
| StringConst (value : string)
| BoolConst (value : bool)
| VariableValue (dotted_ids : list string)
| Assignment (var : string) (rv : Statement)
| FieldAssignment (object : list string) (field_name : string) (rv : Statement)
| NoneLiteral                                       (* ast::None *)
| Print (args : list Statement)
| MethodCall (object : Statement) (method : string) (args : list Statement)
| NewInstance (self : addr) (cls : Class) (args : list Statement)
| Stringify (arg : Statement)
| Add (lhs rhs : Statement)
| Sub (lhs rhs : Statement)
| Mult (lhs rhs : Statement)
| Div (lhs rhs : Statement)
| Or (lhs rhs : Statement)
| And (lhs rhs : Statement)
| Not (arg : Statement)
| Compound (statements : list Statement)
| MethodBody (body : Statement)
| Return (statement : Statement)
| ClassDefinition (cls : Class)
| IfElse (condition if_body : Statement) (else_body : option Statement)
| Comparison (cmp : Comparator) (lhs rhs : Statement)
with Class : Type :=
| mkClass (name : string) (methods : list Method) (parent : option Class)
with Method : Type :=
| mkMethod (name : string) (formal_params : list string) (body : Statement).

Module runtime.

Definition GetName (c : Class) : string :=
  match c with mkClass name _ _ => name end.
Definition method_name (m : Method) : string :=
  match m with mkMethod name _ _ => name end.
Definition formal_params (m : Method) : list string :=
  match m with mkMethod _ params _ => params end.
Definition body (m : Method) : Statement :=
  match m with mkMethod _ _ b => b end.

(** ** ObjectHolder: what a holder refers to *)

Inductive ObjectHolder : Type :=
| HNone                                   (* ObjectHolder::None(), empty *)
| HNumber (value : Z)                     (* runtime::Number *)
| HString (value : string)                (* runtime::String *)
| HBool (value : bool)                    (* runtime::Bool *)
| HClass (cls : Class)                    (* runtime::Class *)
| HInstance (self : addr) (cls : Class).  (* runtime::ClassInstance at [self] *)

(** [ObjectHolder::TryAs<T>()] *)
Definition TryAs_Number (h : ObjectHolder) : option Z :=
  match h with HNumber v => Some v | _ => None end.
Definition TryAs_String (h : ObjectHolder) : option string :=
  match h with HString v => Some v | _ => None end.
Definition TryAs_Bool (h : ObjectHolder) : option bool :=
  match h with HBool v => Some v | _ => None end.
Definition TryAs_ClassInstance (h : ObjectHolder) : option (addr * Class) :=
  match h with HInstance a c => Some (a, c) | _ => None end.

(** [ObjectHolder::operator bool] *)
Definition holds (h : ObjectHolder) : bool :=
  match h with HNone => false | _ => true end.

(** ** Closures, instance fields and the output stream *)

Abbreviation Closure := (gmap string ObjectHolder).

Record State : Type := mkState {
  closure_ : Closure;              (* the [Closure&] the statement runs in *)
  fields_ : gmap addr Closure;     (* [Fields()] of every ClassInstance *)
  output_ : string                 (* what [context.GetOutputStream()] holds *)
}.

(** [ClassInstance::Fields()]: an instance starts with no fields. *)
Definition Fields (a : addr) (st : State) : Closure :=
  default ∅ (fields_ st !! a).

Definition set_closure (c : Closure) (st : State) : State :=
  mkState c (fields_ st) (output_ st).
Definition set_var (var : string) (v : ObjectHolder) (st : State) : State :=
  set_closure (<[var := v]> (closure_ st)) st.
Definition set_field (a : addr) (field : string) (v : ObjectHolder) (st : State) : State :=
  mkState (closure_ st) (<[a := <[field := v]> (Fields a st)]> (fields_ st)) (output_ st).
Definition write (text : string) (st : State) : State :=
  mkState (closure_ st) (fields_ st) (output_ st +:+ text).

(** ** Outcome of an evaluation *)

Inductive Outcome (A : Type) : Type :=
| Normal (a : A) (st : State)                  (* returned [a] *)
| Thrown (holder : ObjectHolder) (st : State)  (* an ObjectHolder in flight *)
| RuntimeError (what : string) (st : State)    (* std::runtime_error in flight *)
| Undefined                                    (* undefined behaviour *)
| OutOfFuel.
Arguments Normal {A} a st.
Arguments Thrown {A} holder st.
Arguments RuntimeError {A} what st.
Arguments Undefined {A}.
Arguments OutOfFuel {A}.

Definition bind {A B} (r : Outcome A) (k : A -> State -> Outcome B) : Outcome B :=
  match r with
  | Normal a st => k a st
  | Thrown h st => Thrown h st
  | RuntimeError w st => RuntimeError w st
  | Undefined => Undefined
  | OutOfFuel => OutOfFuel
  end.

Notation "'do' ( x , st ) <- e ; k" := (bind e (fun x st => k))
  (at level 10, x name, st name, e at level 100, k at level 200,
   format "'[v' 'do'  ( x ,  st )  <-  e ; '/' k ']'").

(** Leaving a call frame: the callee's local closure dies and the caller
    continues (or unwinds) in its own. *)
Definition leave_frame {A} (caller : Closure) (r : Outcome A) : Outcome A :=
  match r with
  | Normal a st => Normal a (set_closure caller st)
  | Thrown h st => Thrown h (set_closure caller st)
  | RuntimeError w st => RuntimeError w (set_closure caller st)
  | Undefined => Undefined
  | OutOfFuel => OutOfFuel
  end.

(** ** runtime::IsTrue *)
Definition IsTrue (object : ObjectHolder) : bool :=
  match TryAs_Number object with
  | Some v => negb (v =? 0)
  | None =>
      match TryAs_String object with
      | Some s => negb (String.eqb s EmptyString)
      | None =>
          match TryAs_Bool object with
          | Some b => b
          | None => false
          end
      end
  end.

(** ** Class::GetMethod *)
Fixpoint GetMethod (c : Class) (name : string) : option Method :=
  match c with
  | mkClass _ methods parent =>
      match List.find (fun m => String.eqb (method_name m) name) methods with
      | Some m => Some m
      | None =>
          match parent with
          | Some p => GetMethod p name
          | None => None
          end
      end
  end.

(** Modelled from the spec: [ClassInstance::HasMethod] is declared in
    runtime.h, which is not among the sources.  The spec: has_method(name,
    argc) finds the method as get_method does and additionally verifies
    that the arity equals the number of declared formal parameters. *)
Definition HasMethod (cls : Class) (method : string) (argument_count : nat) : bool :=
  match GetMethod cls method with
  | Some m => Nat.eqb (length (formal_params m)) argument_count
  | None => false
  end.

Definition Exec := Statement -> State -> Outcome ObjectHolder.

(** The loop of [ClassInstance::Call] binding formals to actuals;
    [formal_params[i]] past the end of the vector is undefined. *)
Fixpoint bind_params (params : list string) (actual_args : list ObjectHolder)
                     (closure : Closure) : option Closure :=
  match actual_args, params with
  | [], _ => Some closure
  | a :: args, p :: params' => bind_params params' args (<[p := a]> closure)
  | _ :: _, [] => None
  end.

(** ** ClassInstance::Call *)
Definition Call (exec : Exec) (self : addr) (cls : Class) (method : string)
                (actual_args : list ObjectHolder) (st : State) : Outcome ObjectHolder :=
  if negb (HasMethod cls method (length actual_args))
  then RuntimeError ("no inplementation of " +:+ method +:+ " in " +:+ GetName cls) st
  else
    match GetMethod cls method with
    | None => Undefined
    | Some method_ptr =>
        match bind_params (formal_params method_ptr) actual_args
                          (<["self" := HInstance self cls]> ∅) with
        | None => Undefined
        | Some closure =>
            leave_frame (closure_ st)
                        (exec (body method_ptr) (set_closure closure st))
        end
    end.

(** [.TryAs<Bool>()->GetValue()] on the result of a dunder call. *)
Definition as_Bool (r : ObjectHolder) (st : State) : Outcome bool :=
  match TryAs_Bool r with
  | Some b => Normal b st
  | None => Undefined
  end.

(** ** runtime::Equal *)
Definition Equal (exec : Exec) (lhs rhs : ObjectHolder) (st : State) : Outcome bool :=
  match TryAs_Number lhs, TryAs_Number rhs with
  | Some l, Some r => Normal (l =? r) st
  | _, _ =>
  match TryAs_String lhs, TryAs_String rhs with
  | Some l, Some r => Normal (String.eqb l r) st
  | _, _ =>
  match TryAs_Bool lhs, TryAs_Bool rhs with
  | Some l, Some r => Normal (Bool.eqb l r) st
  | _, _ =>
  match TryAs_ClassInstance lhs with
  | Some (self, cls) =>
      if HasMethod cls "__eq__" 1
      then do (r, st1) <- Call exec self cls "__eq__" [rhs] st; as_Bool r st1
      else if negb (holds lhs) && negb (holds rhs) then Normal true st
      else RuntimeError "no viable equal operator" st
  | None =>
      if negb (holds lhs) && negb (holds rhs) then Normal true st
      else RuntimeError "no viable equal operator" st
  end end end end.

(** ** runtime::Less *)
Definition Less (exec : Exec) (lhs rhs : ObjectHolder) (st : State) : Outcome bool :=
  match TryAs_Number lhs, TryAs_Number rhs with
  | Some l, Some r => Normal (l <? r) st
  | _, _ =>
  match TryAs_String lhs, TryAs_String rhs with
  | Some l, Some r => Normal (String.ltb l r) st
  | _, _ =>
  match TryAs_Bool lhs, TryAs_Bool rhs with
  | Some l, Some r => Normal (negb l && r) st
  | _, _ =>
  match TryAs_ClassInstance lhs with
  | Some (self, cls) =>
      if HasMethod cls "__lt__" 1
      then do (r, st1) <- Call exec self cls "__lt__" [rhs] st; as_Bool r st1
      else RuntimeError "no viable comparator" st
  | None => RuntimeError "no viable comparator" st
  end end end end.

(** The methods a class can see, its own first, then its parent's and so
    on up the chain. *)
Fixpoint ancestry (c : Class) : list Method :=
  match c with
  | mkClass _ methods parent =>
      methods ++ match parent with
                 | Some p => ancestry p
                 | None => []
                 end
  end.

End runtime.

(* ===================================================================== *)
(** * namespace ast *)
(* ===================================================================== *)

Module ast.
Import runtime.

Definition ADD_METHOD : string := "__add__".
Definition INIT_METHOD : string := "__init__".

(** The operands of a function call are indeterminately sequenced: the
    two [Execute] calls that [Comparison::Execute] passes to its
    comparator run in an order the compiler picks. *)
Inductive ArgOrder : Type := LeftToRight | RightToLeft.

Definition INT_MIN : Z := - 2147483648.
Definition INT_MAX : Z := 2147483647.

(** The result of [int] arithmetic; signed overflow is undefined. *)
Definition Own_Number (v : Z) (st : State) : Outcome ObjectHolder :=
  if (INT_MIN <=? v) && (v <=? INT_MAX) then Normal (HNumber v) st else Undefined.

(** [os << this]: the text of a pointer is implementation defined. *)
Definition print_pointer (a : addr) : string := "0x" +:+ pretty a.

(** ExecuteArguments *)
Fixpoint ExecuteArguments (exec : Exec) (args : list Statement) (st : State)
  : Outcome (list ObjectHolder) :=
  match args with
  | [] => Normal [] st
  | argument :: rest =>
      do (v, st1) <- exec argument st;
      do (vs, st2) <- ExecuteArguments exec rest st1;
      Normal (v :: vs) st2
  end.

(** The body of [Compound::Execute]: results are dropped. *)
Fixpoint ExecuteStatements (exec : Exec) (statements : list Statement) (st : State)
  : Outcome ObjectHolder :=
  match statements with
  | [] => Normal HNone st
  | statement :: rest =>
      do (_v, st1) <- exec statement st;
      ExecuteStatements exec rest st1
  end.

(** [VariableValue::Execute]: [closure_ptr] points at the running closure
    or at the fields of an instance. *)
Inductive ClosurePtr : Type := ThisClosure | FieldsOf (self : addr).

Definition deref (p : ClosurePtr) (st : State) : Closure :=
  match p with
  | ThisClosure => closure_ st
  | FieldsOf a => Fields a st
  end.

Definition not_found (dotted_id : string) : string :=
  "variable " +:+ dotted_id +:+ " not found".

Fixpoint VariableValue_Execute (dotted_ids : list string) (closure_ptr : ClosurePtr)
                               (st : State) : Outcome ObjectHolder :=
  match dotted_ids with
  | [] => Undefined                        (* [end() - 1] of an empty vector *)
  | [id] =>
      match deref closure_ptr st !! id with
      | None => RuntimeError (not_found id) st
      | Some v => Normal v st
      end
  | id :: rest =>
      match deref closure_ptr st !! id with
      | None => RuntimeError (not_found id) st
      | Some v =>
          match TryAs_ClassInstance v with
          | Some (a, _) => VariableValue_Execute rest (FieldsOf a) st
          | None => Undefined              (* [->Fields()] through nullptr *)
          end
      end
  end.

(** AppendByStatement, with [print] standing for [Object::Print]. *)
Definition AppendByStatement (exec : Exec)
    (print : ObjectHolder -> string -> State -> Outcome string)
    (ss : string) (statement : Statement) (st : State) : Outcome string :=
  do (obj, st1) <- exec statement st;
  if holds obj then print obj ss st1 else Normal (ss +:+ "None") st1.

(** The [for_each] of [Print::Execute] over the arguments after the first. *)
Fixpoint AppendRest (exec : Exec)
    (print : ObjectHolder -> string -> State -> Outcome string)
    (ss : string) (args : list Statement) (st : State) : Outcome string :=
  match args with
  | [] => Normal ss st
  | statement :: rest =>
      do (ss1, st1) <- AppendByStatement exec print (ss +:+ " ") statement st;
      AppendRest exec print ss1 rest st1
  end.

(** The stringstream of [Print::Execute] after all arguments. *)
Definition AppendAll (exec : Exec)
    (print : ObjectHolder -> string -> State -> Outcome string)
    (args : list Statement) (st : State) : Outcome string :=
  match args with
  | [] => Normal EmptyString st
  | front :: rest =>
      do (ss0, st0) <- AppendByStatement exec print EmptyString front st;
      AppendRest exec print ss0 rest st0
  end.

Definition arith (op : Z -> Z -> State -> Outcome ObjectHolder) (what : string)
                 (lhs_holder rhs_holder : ObjectHolder) (st : State)
  : Outcome ObjectHolder :=
  match TryAs_Number lhs_holder, TryAs_Number rhs_holder with
  | Some l, Some r => op l r st
  | _, _ => RuntimeError what st
  end.

(** [Execute] of every node, and [Object::Print] of every value.

    Modelled from the spec: [Print] of [Number], [String] and [Class] is
    defined in runtime.h, which is not among the sources; the spec has
    integers print in decimal, strings raw and classes as [Class <name>].
    [HasMethod] with its argument count defaulted is taken at zero, the
    number of arguments [Print] then passes to [Call]. *)
Fixpoint Execute (order : ArgOrder) (fuel : nat) (s : Statement) (st : State)
  {struct fuel} : Outcome ObjectHolder :=
  match fuel with
  | O => OutOfFuel
  | S fuel' =>
    let exec := Execute order fuel' in
    let print := PrintObject order fuel' in
    match s with
    | NumericConst v => Normal (HNumber v) st
    | StringConst v => Normal (HString v) st
    | BoolConst v => Normal (HBool v) st
    | NoneLiteral => Normal HNone st
    | VariableValue dotted_ids => VariableValue_Execute dotted_ids ThisClosure st
    | Assignment var rv =>
        do (v, st1) <- exec rv st;
        Normal v (set_var var v st1)
    | FieldAssignment object field_name rv =>
        do (obj, st1) <- VariableValue_Execute object ThisClosure st;
        match TryAs_ClassInstance obj with
        | Some (a, _) =>
            do (v, st2) <- exec rv st1;
            Normal v (set_field a field_name v st2)
        | None => Normal HNone st1
        end
    | Print args =>
        do (ss, st1) <- AppendAll exec print args st;
        Normal HNone (write (ss +:+ String parse.nl EmptyString) st1)
    | MethodCall object method args =>
        do (obj, st1) <- exec object st;
        match TryAs_ClassInstance obj with
        | Some (a, cls) =>
            if HasMethod cls method (length args)
            then do (actual_args, st2) <- ExecuteArguments exec args st1;
                 Call exec a cls method actual_args st2
            else RuntimeError "not a class instance" st1
        | None => RuntimeError "not a class instance" st1
        end
    | NewInstance self cls args =>
        if HasMethod cls INIT_METHOD (length args)
        then do (actual_args, st1) <- ExecuteArguments exec args st;
             do (_r, st2) <- Call exec self cls INIT_METHOD actual_args st1;
             Normal (HInstance self cls) st2
        else Normal (HInstance self cls) st
    | Stringify arg =>
        do (ss, st1) <- AppendByStatement exec print EmptyString arg st;
        Normal (HString ss) st1
    | Add lhs rhs =>
        do (lhs_holder, st1) <- exec lhs st;
        do (rhs_holder, st2) <- exec rhs st1;
        match TryAs_Number lhs_holder, TryAs_Number rhs_holder with
        | Some l, Some r => Own_Number (l + r) st2
        | _, _ =>
        match TryAs_String lhs_holder, TryAs_String rhs_holder with
        | Some l, Some r => Normal (HString (l +:+ r)) st2
        | _, _ =>
        match TryAs_ClassInstance lhs_holder with
        | Some (a, cls) =>
            if HasMethod cls ADD_METHOD 1
            then Call exec a cls ADD_METHOD [rhs_holder] st2
            else RuntimeError "cannot add arguments" st2
        | None => RuntimeError "cannot add arguments" st2
        end end end
    | Sub lhs rhs =>
        do (lhs_holder, st1) <- exec lhs st;
        do (rhs_holder, st2) <- exec rhs st1;
        arith (fun l r => Own_Number (l - r))
              "cannot substract arguments (valid for numbers only)"
              lhs_holder rhs_holder st2
    | Mult lhs rhs =>
        do (lhs_holder, st1) <- exec lhs st;
        do (rhs_holder, st2) <- exec rhs st1;
        arith (fun l r => Own_Number (l * r))
              "cannot multiply arguments (valid for numbers only)"
              lhs_holder rhs_holder st2
    | Div lhs rhs =>
        do (lhs_holder, st1) <- exec lhs st;
        do (rhs_holder, st2) <- exec rhs st1;
        arith (fun l r st' =>
                 if r =? 0 then RuntimeError "try to divide to zero" st'
                 else Own_Number (Z.quot l r) st')
              "cannot divide arguments (valid for numbers only)"
              lhs_holder rhs_holder st2
    | Or lhs rhs =>
        do (l, st1) <- exec lhs st;
        if negb (IsTrue l)
        then do (r, st2) <- exec rhs st1; Normal (HBool (IsTrue r)) st2
        else Normal (HBool true) st1
    | And lhs rhs =>
        do (l, st1) <- exec lhs st;
        if IsTrue l
        then do (r, st2) <- exec rhs st1; Normal (HBool (IsTrue r)) st2
        else Normal (HBool false) st1
    | Not arg =>
        do (v, st1) <- exec arg st;
        Normal (HBool (negb (IsTrue v))) st1
    | Compound statements => ExecuteStatements exec statements st
    | MethodBody body =>
        match exec body st with
        | Thrown holder st1 => Normal holder st1
        | Normal _ st1 => Normal HNone st1
        | other => other
        end
    | Return statement =>
        do (v, st1) <- exec statement st;
        Thrown v st1
    | ClassDefinition cls =>
        Normal HNone (set_var (GetName cls) (HClass cls) st)
    | IfElse condition if_body else_body =>
        do (c, st1) <- exec condition st;
        if IsTrue c then exec if_body st1
        else match else_body with
             | Some e => exec e st1
             | None => Normal HNone st1
             end
    | Comparison cmp lhs rhs =>
        let compare l r st' :=
          do (b, st3) <- match cmp with
                         | Equal_cmp => Equal exec l r st'
                         | Less_cmp => Less exec l r st'
                         end;
          Normal (HBool b) st3 in
        match order with
        | LeftToRight =>
            do (l, st1) <- exec lhs st;
            do (r, st2) <- exec rhs st1;
            compare l r st2
        | RightToLeft =>
            do (r, st1) <- exec rhs st;
            do (l, st2) <- exec lhs st1;
            compare l r st2
        end
    end
  end

with PrintObject (order : ArgOrder) (fuel : nat) (obj : ObjectHolder)
                 (os : string) (st : State) {struct fuel} : Outcome string :=
  match fuel with
  | O => OutOfFuel
  | S fuel' =>
    match obj with
    | HNone => Undefined                       (* AssertIsValid *)
    | HNumber v => Normal (os +:+ pretty v) st
    | HString v => Normal (os +:+ v) st
    | HBool v => Normal (os +:+ (if v then "True" else "False")) st
    | HClass cls => Normal (os +:+ "Class " +:+ GetName cls) st
    | HInstance self cls =>
        if HasMethod cls "__str__" 0
        then do (r, st1) <- Call (Execute order fuel') self cls "__str__" [] st;
             PrintObject order fuel' r os st1
        else Normal (os +:+ print_pointer self) st
    end
  end.


(** ** Specification vocabulary *)

(** [Equal] and [Less] as the spec words them: like
    primitives compare directly; two nones are equal; an instance on the
    left whose class has the dunder with one parameter is asked;
    everything else is a runtime error. *)
Definition like_kinded (lhs rhs : ObjectHolder) : bool :=
  match lhs, rhs with
  | HNumber _, HNumber _ | HString _, HString _ | HBool _, HBool _ => true
  | _, _ => false
  end.

Definition both_none (lhs rhs : ObjectHolder) : bool :=
  match lhs, rhs with
  | HNone, HNone => true
  | _, _ => false
  end.

Definition defines (dunder : string) (lhs : ObjectHolder) : bool :=
  match lhs with
  | HInstance _ cls => HasMethod cls dunder 1
  | _ => false
  end.

Definition dispatch (exec : Exec) (dunder : string) (lhs rhs : ObjectHolder)
                    (st : State) : Outcome bool :=
  match lhs with
  | HInstance self cls =>
      do (r, st1) <- Call exec self cls dunder [rhs] st; as_Bool r st1
  | _ => Undefined
  end.

Definition Equal_spec (exec : Exec) (lhs rhs : ObjectHolder) (st : State)
  : Outcome bool :=
  match lhs, rhs with
  | HNumber l, HNumber r => Normal (l =? r) st
  | HString l, HString r => Normal (String.eqb l r) st
  | HBool l, HBool r => Normal (Bool.eqb l r) st
  | _, _ =>
      if both_none lhs rhs then Normal true st
      else if defines "__eq__" lhs then dispatch exec "__eq__" lhs rhs st
      else RuntimeError "no viable equal operator" st
  end.

Definition Less_spec (exec : Exec) (lhs rhs : ObjectHolder) (st : State)
  : Outcome bool :=
  match lhs, rhs with
  | HNumber l, HNumber r => Normal (l <? r) st
  | HString l, HString r => Normal (String.ltb l r) st
  | HBool l, HBool r => Normal (negb l && r) st
  | _, _ =>
      if defines "__lt__" lhs then dispatch exec "__lt__" lhs rhs st
      else RuntimeError "no viable comparator" st
  end.

Definition primitive_or_none (h : ObjectHolder) : bool :=
  match h with
  | HNone | HNumber _ | HString _ | HBool _ => true
  | _ => false
  end.

(** ** Where a statement sits inside a method body

    A [Frame] is a node other than [MethodBody] with one child taken out;
    [plug] rebuilds the statement around what is put in the hole. *)
Inductive Frame : Type :=
| InAssignment (var : string)
| InFieldAssignment (object : list string) (field_name : string)
| InPrint (before after : list Statement)
| InMethodCallObject (method : string) (args : list Statement)
| InMethodCallArgs (object : Statement) (method : string)
                   (before after : list Statement)
| InNewInstance (self : addr) (cls : Class) (before after : list Statement)
| InStringify
| InAddLhs (rhs : Statement) | InAddRhs (lhs : Statement)
| InSubLhs (rhs : Statement) | InSubRhs (lhs : Statement)
| InMultLhs (rhs : Statement) | InMultRhs (lhs : Statement)
| InDivLhs (rhs : Statement) | InDivRhs (lhs : Statement)
| InOrLhs (rhs : Statement) | InOrRhs (lhs : Statement)
| InAndLhs (rhs : Statement) | InAndRhs (lhs : Statement)
| InNot
| InCompound (before after : list Statement)
| InReturn
| InIfCondition (if_body : Statement) (else_body : option Statement)
| InIfBody (condition : Statement) (else_body : option Statement)
| InElseBody (condition if_body : Statement)
| InComparisonLhs (cmp : Comparator) (rhs : Statement)
| InComparisonRhs (cmp : Comparator) (lhs : Statement).

Definition fill (f : Frame) (s : Statement) : Statement :=
  match f with
  | InAssignment var => Assignment var s
  | InFieldAssignment object field_name => FieldAssignment object field_name s
  | InPrint before after => Print (before ++ s :: after)
  | InMethodCallObject method args => MethodCall s method args
  | InMethodCallArgs object method before after =>
      MethodCall object method (before ++ s :: after)
  | InNewInstance self cls before after => NewInstance self cls (before ++ s :: after)
  | InStringify => Stringify s
  | InAddLhs rhs => Add s rhs | InAddRhs lhs => Add lhs s
  | InSubLhs rhs => Sub s rhs | InSubRhs lhs => Sub lhs s
  | InMultLhs rhs => Mult s rhs | InMultRhs lhs => Mult lhs s
  | InDivLhs rhs => Div s rhs | InDivRhs lhs => Div lhs s
  | InOrLhs rhs => Or s rhs | InOrRhs lhs => Or lhs s
  | InAndLhs rhs => And s rhs | InAndRhs lhs => And lhs s
  | InNot => Not s
  | InCompound before after => Compound (before ++ s :: after)
  | InReturn => Return s
  | InIfCondition if_body else_body => IfElse s if_body else_body
  | InIfBody condition else_body => IfElse condition s else_body
  | InElseBody condition if_body => IfElse condition if_body (Some s)
  | InComparisonLhs cmp rhs => Comparison cmp s rhs
  | InComparisonRhs cmp lhs => Comparison cmp lhs s
  end.

(** Frames are listed from the outermost inwards. *)
Definition plug (path : list Frame) (s : Statement) : Statement :=
  fold_right fill s path.

(** [enters order fuel f st st']: the node [fill f _], whose children run
    with [fuel], takes control from [st] to its hole, arriving in [st'];
    what precedes the hole on the way has completed normally. *)
Definition enters (order : ArgOrder) (fuel : nat) (f : Frame) (st st' : State) : Prop :=
  let exec := Execute order fuel in
  let print := PrintObject order fuel in
  match f with
  | InAssignment _ | InMethodCallObject _ _ | InStringify | InNot | InReturn
  | InAddLhs _ | InSubLhs _ | InMultLhs _ | InDivLhs _ | InOrLhs _ | InAndLhs _
  | InIfCondition _ _ => st' = st
  | InFieldAssignment object _ =>
      exists a cls, VariableValue_Execute object ThisClosure st
                    = Normal (HInstance a cls) st'
  | InPrint before _ =>
      match before with
      | [] => st' = st
      | _ :: _ => exists ss, AppendAll exec print before st = Normal ss st'
      end
  | InMethodCallArgs object method before after =>
      exists a cls st1 vs,
        exec object st = Normal (HInstance a cls) st1 /\
        HasMethod cls method (length (before ++ NoneLiteral :: after)) = true /\
        ExecuteArguments exec before st1 = Normal vs st'
  | InNewInstance _ cls before after =>
      HasMethod cls INIT_METHOD (length (before ++ NoneLiteral :: after)) = true /\
      exists vs, ExecuteArguments exec before st = Normal vs st'
  | InAddRhs lhs | InSubRhs lhs | InMultRhs lhs | InDivRhs lhs =>
      exists l, exec lhs st = Normal l st'
  | InOrRhs lhs => exists l, exec lhs st = Normal l st' /\ IsTrue l = false
  | InAndRhs lhs => exists l, exec lhs st = Normal l st' /\ IsTrue l = true
  | InCompound before _ =>
      exists v, ExecuteStatements exec before st = Normal v st'
  | InIfBody condition _ =>
      exists c, exec condition st = Normal c st' /\ IsTrue c = true
  | InElseBody condition _ =>
      exists c, exec condition st = Normal c st' /\ IsTrue c = false
  | InComparisonLhs _ rhs =>
      match order with
      | LeftToRight => st' = st
      | RightToLeft => exists r, exec rhs st = Normal r st'
      end
  | InComparisonRhs _ lhs =>
      match order with
      | LeftToRight => exists l, exec lhs st = Normal l st'
      | RightToLeft => st' = st
      end
  end.

(** [reaches order n path st st']: running [plug path s] from [st] brings
    control to [s] in state [st'], where [s] is given fuel [S n] and every
    enclosing node one unit more than the node inside it. *)
Fixpoint reaches (order : ArgOrder) (n : nat) (path : list Frame) (st st' : State)
  : Prop :=
  match path with
  | [] => st' = st
  | f :: inner =>
      exists st1, enters order (S n + length inner) f st st1 /\
                  reaches order n inner st1 st'
  end.

(** ** What [Print] writes

    The text of a value that is not an instance, as [AppendByStatement]
    puts it on the stream. *)
Definition text_of (v : ObjectHolder) : option string :=
  match v with
  | HNone => Some "None"
  | HNumber n => Some (pretty n)
  | HString s => Some s
  | HBool b => Some (if b then "True" else "False")
  | HClass cls => Some ("Class " +:+ GetName cls)
  | HInstance _ _ => None
  end.

(** Texts with one blank between neighbours. *)
Fixpoint join_with_blanks (texts : list string) : string :=
  match texts with
  | [] => EmptyString
  | [t] => t
  | t :: rest => t +:+ " " +:+ join_with_blanks rest
  end.

(** Each text with a blank before it. *)
Fixpoint blanks_then (texts : list string) : string :=
  match texts with
  | [] => EmptyString
  | t :: rest => " " +:+ t +:+ blanks_then rest
  end.

(** The argument [a] evaluates, from any state and without changing it,
    to a value whose text is [text]. *)
Definition prints_as (order : ArgOrder) (fuel : nat) (a : Statement) (text : string)
  : Prop :=
  exists v, (forall st, Execute order fuel a st = Normal v st) /\ text_of v = Some text.

(** ** What a run leaves behind

    [grows st st']: the output of [st'] starts with that of [st], every
    variable bound in the running closure of [st] is bound in that of
    [st'], and every field set in [st] is set in [st']. *)
Definition grows (st st' : State) : Prop :=
  (exists text, output_ st' = output_ st +:+ text) /\
  (forall x, is_Some (closure_ st !! x) -> is_Some (closure_ st' !! x)) /\
  (forall a field, is_Some (Fields a st !! field) -> is_Some (Fields a st' !! field)).

Definition keeps {A} (st : State) (r : Outcome A) : Prop :=
  match r with
  | Normal _ st' | Thrown _ st' | RuntimeError _ st' => grows st st'
  | Undefined | OutOfFuel => True
  end.

(** [settled_by r r']: unless [r] ran out of fuel, [r'] is the same. *)
Definition settled_by {A} (r r' : Outcome A) : Prop :=
  r = OutOfFuel \/ r' = r.

End ast.

(* ===================================================================== *)
(** * Sample inputs *)
(* ===================================================================== *)

Definition src (s : string) : parse.istream := list_ascii_of_string s.
Definition LF : string := String parse.nl EmptyString.

(** A block whose last line is blank but indented like the block. *)
Definition trailing_blanks : parse.istream :=
  src ("a" +:+ LF +:+ "  b" +:+ LF +:+ "  ").

Module sample.
Import runtime ast.

Definition empty_state : State := mkState ∅ ∅ EmptyString.

(** <<
class Person:
  def set_name(name):
    self.name = name

class Factory:
  def make():
    return Person()

f = Factory()
a = f.make()
a.name = 'Ivan'
b = f.make()
>> *)
Definition Person : Class :=
  mkClass "Person"
    [mkMethod "set_name" ["name"]
       (MethodBody (Compound [FieldAssignment ["self"] "name" (VariableValue ["name"])]))]
    None.

Definition new_Person : Statement := NewInstance 1%nat Person [].

Definition Factory : Class :=
  mkClass "Factory"
    [mkMethod "make" [] (MethodBody (Compound [Return new_Person]))]
    None.

Definition make : Statement := MethodCall (VariableValue ["f"]) "make" [].

Definition first_use : list Statement :=
  [ ClassDefinition Person;
    ClassDefinition Factory;
    Assignment "f" (NewInstance 0%nat Factory []);
    Assignment "a" make;
    FieldAssignment ["a"] "name" (StringConst "Ivan") ].

(** A class that overloads both comparisons, noisily. *)
Definition Loud : Class :=
  mkClass "Loud"
    [mkMethod "__eq__" ["other"]
       (MethodBody (Compound [Print [StringConst "eq"]; Return (BoolConst true)]));
     mkMethod "__lt__" ["other"]
       (MethodBody (Compound [Print [StringConst "lt"]; Return (BoolConst true)]))]
    None.

(** <<
    print 'a'
    if n:
      return 'big'
      print 'b'
    return 'small'
>> as a path to the first [return] and what is in its hole. *)
Definition to_first_return : list Frame :=
  [ InCompound [Print [StringConst "a"]] [Return (StringConst "small")];
    InIfBody (VariableValue ["n"]) None;
    InCompound [] [Print [StringConst "b"]] ].

Definition side_effect : Statement := Print [StringConst "side"].

Definition n_is_seven : State := mkState {[ "n" := HNumber 7 ]} ∅ EmptyString.

(** Two variables that name the same instance. *)
Definition two_names : State :=
  mkState {[ "a" := HInstance 1%nat Person; "b" := HInstance 1%nat Person ]}
          ∅ EmptyString.

End sample.

(* ===================================================================== *)
(** * The lexer: facts *)
(* ===================================================================== *)

Section LexerFacts.
Import parse.

Lemma skip_spaces_length input n :
  (length (snd (skip_spaces input n)) <= length input)%nat.
Proof.
  revert n. induction input as [|c rest IH]; intros n; simpl; [lia|].
  destruct (Ascii.eqb c space); simpl; [|lia].
  specialize (IH ((n + 1) mod SIZE_MAX1)). lia.
Qed.

Lemma skip_comment_length input :
  (length (skip_comment input) <= length input)%nat.
Proof.
  induction input as [|c rest IH]; simpl; [lia|].
  destruct (Ascii.eqb c nl); simpl; lia.
Qed.

Lemma peek_is_cons input c :
  peek_is input c = true -> exists rest, input = c :: rest.
Proof.
  destruct input as [|d rest]; simpl; [discriminate|].
  unfold peek_is; simpl. intros H. apply Ascii.eqb_eq in H. subst. eauto.
Qed.

(** The loop of [MoveToNextToken] terminates: each further iteration has
    consumed a line feed, so the length of the input is enough fuel. *)
Lemma MoveToNextToken_loop_total fuel skip_blank input :
  (length input < fuel)%nat ->
  MoveToNextToken_loop fuel skip_blank input <> None.
Proof.
  revert input. induction fuel as [|fuel IH]; intros input Hlen; [lia|].
  simpl. pose proof (skip_spaces_length input 0) as Hs.
  destruct (skip_spaces input 0) as [space_count in1]; simpl in Hs.
  set (in2 := if peek_is in1 hash then skip_comment in1 else in1).
  assert (length in2 <= length in1)%nat as H2.
  { subst in2. destruct (peek_is in1 hash); [apply skip_comment_length | lia]. }
  destruct (peek_is in2 nl) eqn:Hnl; simpl; [|discriminate].
  destruct skip_blank; [|discriminate].
  apply IH. apply peek_is_cons in Hnl as [rest ->]. simpl in *. lia.
Qed.

Lemma MoveToNextToken_terminates lx : MoveToNextToken lx <> OutOfFuel.
Proof.
  unfold MoveToNextToken.
  pose proof (MoveToNextToken_loop_total (S (length (input_ lx)))
                (empty (tokens_ lx)
                 || negb (empty (tokens_ lx)) && current_is Is_Newline (tokens_ lx))
                (input_ lx) (Nat.lt_succ_diag_r _)) as Htotal.
  destruct (MoveToNextToken_loop _ _ _) as [[space_count input']|]; [|congruence].
  repeat (match goal with
          | |- context [if ?b then _ else _] => destruct b
          | |- context [match ?l with [] => _ | _ :: _ => _ end] => destruct l
          end); discriminate.
Qed.

(** Where blank lines are skipped, the loop does not stop at a line feed. *)
Lemma MoveToNextToken_loop_not_nl fuel input space_count input' :
  MoveToNextToken_loop fuel true input = Some (space_count, input') ->
  peek_is input' nl = false.
Proof.
  revert input. induction fuel as [|fuel IH]; intros input; simpl; [discriminate|].
  destruct (skip_spaces input 0) as [n in1].
  set (in2 := if peek_is in1 hash then skip_comment in1 else in1).
  destruct (peek_is in2 nl) eqn:Hnl; simpl.
  - apply IH.
  - intros [= <- <-]. exact Hnl.
Qed.

Lemma MoveToNextToken_inv lx lx1 :
  MoveToNextToken lx = Ok lx1 ->
  tokens_ lx1 = tokens_ lx /\
  indent_sizes_ lx1 = indent_sizes_ lx /\
  (empty (tokens_ lx) || current_is Is_Newline (tokens_ lx) = true ->
   peek_is (input_ lx1) nl = false).
Proof.
  unfold MoveToNextToken.
  set (is_new_line := negb (empty (tokens_ lx)) && current_is Is_Newline (tokens_ lx)).
  destruct (MoveToNextToken_loop _ _ _) as [[space_count input']|] eqn:Hloop;
    [|discriminate].
  assert (empty (tokens_ lx) || current_is Is_Newline (tokens_ lx) = true ->
          peek_is input' nl = false) as Hnl.
  { intros Hskip.
    assert (empty (tokens_ lx) || is_new_line = true) as Hsk.
    { subst is_new_line. destruct (empty (tokens_ lx)); simpl in *; auto. }
    rewrite Hsk in Hloop. eapply MoveToNextToken_loop_not_nl; eauto. }
  destruct (is_new_line && negb (space_count mod 2 =? 0)); [discriminate|].
  destruct is_new_line.
  - destruct (indent_sizes_ lx) as [|top below] eqn:Hst; [discriminate|].
    destruct (negb (space_count =? top)); intros [= <-]; simpl; auto.
  - intros [= <-]; simpl; auto.
Qed.

Lemma keywords_content s t :
  keywords s = Some t -> is_layout t = false.
Proof.
  unfold keywords.
  repeat (match goal with |- context [String.eqb ?a ?b] => destruct (String.eqb a b) end;
          [intros [= <-]; reflexivity|]).
  discriminate.
Qed.

Lemma ParseString_loop_content fuel quote input str t rest :
  ParseString_loop fuel quote input str = Ok (t, rest) -> is_layout t = false.
Proof.
  revert input str. induction fuel as [|fuel IH]; intros input str; simpl; [discriminate|].
  destruct (Ascii.eqb (to_char (hd_error input)) quote).
  - intros [= <- _]. reflexivity.
  - destruct (Ascii.eqb (to_char (hd_error input)) backslash); [|apply IH].
    repeat (match goal with |- context [if ?b then _ else _] => destruct b end);
      apply IH.
Qed.

Lemma comparison_lexems_content s t :
  comparison_lexems s = Some t -> is_layout t = false.
Proof.
  unfold comparison_lexems.
  repeat (match goal with |- context [String.eqb ?a ?b] => destruct (String.eqb a b) end;
          [intros [= <-]; reflexivity|]).
  discriminate.
Qed.

Lemma ParseLexem_content input t rest :
  ParseLexem input = Ok (t, rest) -> is_layout t = false.
Proof.
  unfold ParseLexem, get.
  destruct (peek_is (tl input) "="%char).
  - destruct (comparison_lexems _) as [t'|] eqn:Hcmp; [|discriminate].
    intros [= <- _]. eapply comparison_lexems_content; eauto.
  - intros [= <- _]. reflexivity.
Qed.

Lemma ParseDigit_content input t rest :
  ParseDigit input = Ok (t, rest) -> is_layout t = false.
Proof.
  unfold ParseDigit. destruct (read_digits input 0) as [v r].
  destruct (v >? INT_MAX); [discriminate|]. intros [= <- _]. reflexivity.
Qed.

Lemma ParseIdentifier_content input :
  is_layout (fst (ParseIdentifier input)) = false.
Proof.
  unfold ParseIdentifier. destruct (read_identifier input) as [chars rest].
  destruct (keywords _) as [t|] eqn:Hkw; simpl; [|reflexivity].
  eapply keywords_content; eauto.
Qed.

Lemma ParseString_content fuel input t rest :
  ParseString fuel input = Ok (t, rest) -> is_layout t = false.
Proof. unfold ParseString, get. apply ParseString_loop_content. Qed.

(** [ParseIndent] pushes with an [Indent] and pops with a [Dedent]. *)
Lemma ParseIndent_stack current stack t stack' :
  ParseIndent current stack = Ok (t, stack') ->
  (t = token_type.Indent /\ length stack' = S (length stack)) \/
  (t = token_type.Dedent /\ S (length stack') = length stack).
Proof.
  unfold ParseIndent. destruct stack as [|top below]; [discriminate|].
  destruct (current >? top); intros [= <- <-]; simpl; auto.
Qed.

Lemma is_layout_false t :
  is_layout t = false ->
  Is_Newline t = false /\ Is_Indent t = false /\ Is_Dedent t = false /\ Is_Eof t = false.
Proof. destruct t; simpl; intros H; try discriminate; auto. Qed.

Lemma to_char_nl input :
  Ascii.eqb (to_char (peek input)) nl = true -> peek_is input nl = true.
Proof.
  unfold peek_is. destruct (peek input); simpl; [auto | discriminate].
Qed.

(** One call of [NextToken] appends exactly one token.  That token is a
    [Newline] only if the stream was not empty and did not end in one; it
    is an [Indent] exactly when the indent stack grew by one and a
    [Dedent] exactly when it shrank by one. *)
Lemma NextToken_appends fuel lx lx' :
  NextToken fuel lx = Ok lx' ->
  exists t, tokens_ lx' = tokens_ lx ++ [t] /\
            (Is_Newline t = true ->
             empty (tokens_ lx) = false /\ current_is Is_Newline (tokens_ lx) = false) /\
            (length (indent_sizes_ lx') + (if Is_Dedent t then 1 else 0) =
             length (indent_sizes_ lx) + (if Is_Indent t then 1 else 0))%nat.
Proof.
  unfold NextToken.
  destruct (MoveToNextToken lx) as [lx1| | | |] eqn:Hmove; simpl; try discriminate.
  apply MoveToNextToken_inv in Hmove as (Htok & Hstk & Hnl).
  rewrite <- Htok, <- Hstk in *.
  assert (forall (t : Token) rest, is_layout t = false ->
            exists t', tokens_ (push_back lx1 rest t) = tokens_ lx1 ++ [t'] /\
              (Is_Newline t' = true ->
               empty (tokens_ lx1) = false /\
               current_is Is_Newline (tokens_ lx1) = false) /\
              (length (indent_sizes_ (push_back lx1 rest t))
               + (if Is_Dedent t' then 1 else 0) =
               length (indent_sizes_ lx1) + (if Is_Indent t' then 1 else 0))%nat)
    as Hcontent.
  { intros t rest Ht. exists t.
    apply is_layout_false in Ht as (-> & -> & -> & _). simpl.
    repeat split; try discriminate; lia. }
  destruct (indent_sizes_ lx1) as [|top below] eqn:Hstack; [discriminate|].
  rewrite <- Hstack in *.
  destruct (negb (current_indent_size_ lx1 =? top)).
  { destruct (ParseIndent _ _) as [[t stack]| | | |] eqn:Hp; simpl; try discriminate.
    intros [= <-]; simpl. exists t. split; [reflexivity|].
    apply ParseIndent_stack in Hp as [[-> Hlen]|[-> Hlen]]; simpl;
      (split; [discriminate | lia]). }
  destruct (isdigit _).
  { destruct (ParseDigit _) as [[t rest]| | | |] eqn:Hp; simpl; try discriminate.
    intros [= <-]. apply Hcontent. eapply ParseDigit_content; eauto. }
  destruct (isalpha _ || Ascii.eqb _ "_"%char).
  { pose proof (ParseIdentifier_content (input_ lx1)) as Hp.
    destruct (ParseIdentifier _) as [t rest]; simpl in Hp.
    intros [= <-]. apply Hcontent, Hp. }
  destruct (Ascii.eqb _ squote || Ascii.eqb _ dquote).
  { destruct (ParseString _ _) as [[t rest]| | | |] eqn:Hp; simpl; try discriminate.
    intros [= <-]. apply Hcontent. eapply ParseString_content; eauto. }
  destruct (Ascii.eqb _ "!"%char || Ascii.eqb _ "<"%char
            || Ascii.eqb _ ">"%char || Ascii.eqb _ "="%char).
  { destruct (ParseLexem _) as [[t rest]| | | |] eqn:Hp; simpl; try discriminate.
    intros [= <-]. apply Hcontent. eapply ParseLexem_content; eauto. }
  destruct (Ascii.eqb (to_char (peek (input_ lx1))) nl) eqn:Hc.
  { simpl. intros [= <-]; simpl. eexists; split; [reflexivity|].
    split; [|simpl; lia]. intros _.
    apply to_char_nl in Hc.
    destruct (empty (tokens_ lx1) || current_is Is_Newline (tokens_ lx1)) eqn:Hskip.
    - specialize (Hnl eq_refl). congruence.
    - apply orb_false_iff in Hskip. exact Hskip. }
  destruct (Ascii.eqb _ EOF_char).
  { intros [= <-]; simpl. eexists; split; [reflexivity|].
    unfold ParseEof.
    destruct (empty (tokens_ lx1)); simpl; [split; [discriminate | lia]|].
    destruct (current_is Is_Newline (tokens_ lx1)); simpl;
      [split; [discriminate | lia]|].
    destruct (current_is Is_Eof (tokens_ lx1) || current_is Is_Dedent (tokens_ lx1));
      simpl; (split; [auto | lia]). }
  intros [= <-]. apply Hcontent. reflexivity.
Qed.

Lemma CurrentToken_snoc tokens t : CurrentToken (tokens ++ [t]) = Some t.
Proof. unfold CurrentToken. apply last_snoc. Qed.

Lemma no_double_newline_snoc tokens t :
  no_double_newline (tokens ++ [t]) =
  no_double_newline tokens && negb (current_is Is_Newline tokens && Is_Newline t).
Proof.
  induction tokens as [|t1 rest IH]; simpl.
  - reflexivity.
  - destruct rest as [|t2 rest']; simpl in *.
    + unfold current_is; simpl. destruct (Is_Newline t1), (Is_Newline t); reflexivity.
    + rewrite IH. unfold current_is, CurrentToken. simpl.
      destruct (Is_Newline t1 && Is_Newline t2); simpl; reflexivity.
Qed.

Lemma first_not_newline_snoc tokens t :
  first_not_newline (tokens ++ [t]) =
  if empty tokens then negb (Is_Newline t) else first_not_newline tokens.
Proof. destruct tokens; reflexivity. Qed.

Lemma NextToken_preserves fuel lx lx' :
  NextToken fuel lx = Ok lx' ->
  first_not_newline (tokens_ lx) = true ->
  no_double_newline (tokens_ lx) = true ->
  first_not_newline (tokens_ lx') = true /\ no_double_newline (tokens_ lx') = true.
Proof.
  intros Hnext Hfirst Hno.
  apply NextToken_appends in Hnext as (t & -> & Hnewline & _).
  rewrite first_not_newline_snoc, no_double_newline_snoc, Hfirst, Hno.
  destruct (Is_Newline t).
  - destruct Hnewline as [-> ->]; auto.
  - rewrite andb_false_r. destruct (empty (tokens_ lx)); auto.
Qed.

(** C7. Newline idempotence: whatever the input and however many tokens
    have been read, the tokens emitted so far do not start with a
    [Newline] and contain no two [Newline]s in a row. *)
Theorem newline_idempotence fuel n input lx :
  Lexer_run fuel n input = Ok lx ->
  first_not_newline (tokens_ lx) = true /\ no_double_newline (tokens_ lx) = true.
Proof.
  revert lx. induction n as [|n IH]; intros lx; simpl.
  - unfold Lexer_new. intros H.
    eapply NextToken_preserves in H; simpl; auto.
  - destruct (Lexer_run fuel n input) as [lx0| | | |]; simpl; try discriminate.
    intros H. destruct (IH lx0 eq_refl) as [Hfirst Hno].
    eapply NextToken_preserves; eauto.
Qed.

Lemma newline_idempotence_witness :
  exists lx,
    Lexer_run 4 7 (src ("x = 'a'" +:+ LF +:+ LF +:+ "  # note" +:+ LF +:+ "y")) = Ok lx /\
    first_not_newline (tokens_ lx) = true /\ no_double_newline (tokens_ lx) = true.
Proof.
  eexists. split.
  - vm_compute. reflexivity.
  - apply (newline_idempotence 4 7
             (src ("x = 'a'" +:+ LF +:+ LF +:+ "  # note" +:+ LF +:+ "y"))).
    vm_compute. reflexivity.
Defined.

Lemma count_tokens_snoc p tokens t :
  count_tokens p (tokens ++ [t]) =
  (count_tokens p tokens + (if p t then 1 else 0))%nat.
Proof.
  unfold count_tokens. rewrite List.filter_app, length_app. simpl.
  destruct (p t); reflexivity.
Qed.

(** What does hold of [Indent] and [Dedent]: their counts differ by the
    number of indent widths still on the stack above the initial one. *)
Lemma indent_stack_balance fuel n input lx :
  Lexer_run fuel n input = Ok lx ->
  (count_tokens Is_Indent (tokens_ lx) + 1 =
   count_tokens Is_Dedent (tokens_ lx) + length (indent_sizes_ lx))%nat.
Proof.
  revert lx. induction n as [|n IH]; intros lx; simpl.
  - unfold Lexer_new. intros H.
    apply NextToken_appends in H as (t & -> & _ & Hlen). simpl in *.
    unfold count_tokens; simpl.
    destruct (Is_Indent t), (Is_Dedent t); simpl; lia.
  - destruct (Lexer_run fuel n input) as [lx0| | | |]; simpl; try discriminate.
    intros H. specialize (IH lx0 eq_refl).
    apply NextToken_appends in H as (t & -> & _ & Hlen).
    rewrite !count_tokens_snoc. lia.
Qed.

(** At the end of the stream, with the indent resolved and [Eof] already
    emitted, [NextToken] emits [Eof] again and changes nothing else. *)
Lemma NextToken_after_Eof fuel current stack tokens :
  current_is Is_Eof tokens = true ->
  NextToken fuel (mkLexer [] current (current :: stack) tokens) =
  Ok (mkLexer [] current (current :: stack) (tokens ++ [token_type.Eof])).
Proof.
  intros He.
  assert (empty tokens = false) as Hemp.
  { destruct tokens; [discriminate | reflexivity]. }
  assert (current_is Is_Newline tokens = false) as Hn.
  { unfold current_is in *. destruct (CurrentToken tokens) as [[]|]; auto; discriminate. }
  unfold NextToken, MoveToNextToken; simpl.
  rewrite Hemp, Hn; simpl. rewrite Z.eqb_refl; simpl.
  unfold push_back, ParseEof; simpl. rewrite Hemp, Hn, He. reflexivity.
Qed.

Lemma current_is_snoc p tokens t : current_is p (tokens ++ [t]) = p t.
Proof. unfold current_is. rewrite CurrentToken_snoc. reflexivity. Qed.

Lemma repeat_snoc {A} (x : A) k : repeat x (S k) = repeat x k ++ [x].
Proof. rewrite <- repeat_cons. reflexivity. Qed.

Lemma trailing_blanks_run fuel k :
  Lexer_run fuel (5 + k) trailing_blanks =
  Ok (mkLexer [] 2 [2; 0]
        ([token_type.Id "a"; token_type.Newline; token_type.Indent;
          token_type.Id "b"; token_type.Newline]
         ++ repeat token_type.Eof (S k))).
Proof.
  induction k as [|k IH].
  - reflexivity.
  - replace (5 + S k)%nat with (S (5 + k)) by lia.
    cbn [Lexer_run]. rewrite IH. cbn [bind].
    rewrite NextToken_after_Eof.
    + rewrite <- app_assoc, <- repeat_snoc. reflexivity.
    + rewrite repeat_snoc, app_assoc. apply current_is_snoc.
Qed.

(** The same block with nothing after its last line feed is closed: the
    end of the stream counts as a line of no indent. *)
Example block_closed_at_eof fuel :
  tokens_of (Lexer_run fuel 6 (src ("a" +:+ LF +:+ "  b" +:+ LF))) =
  [token_type.Id "a"; token_type.Newline; token_type.Indent;
   token_type.Id "b"; token_type.Newline; token_type.Dedent; token_type.Eof].
Proof. reflexivity. Qed.

(** C2. Indent-stack balance fails on the input [a], line feed, two
    blanks, [b], line feed, two blanks: the last line has no content but
    carries the indentation of the open block, so [MoveToNextToken] sees
    no change of indent and [ParseEof] answers [Eof] at once.  However
    long the lexer is driven, one [Indent] and no [Dedent] has been
    emitted, and the stream ends in [Eof]. *)
Theorem eof_leaves_indent_open fuel k :
  exists lx,
    Lexer_run fuel (5 + k) trailing_blanks = Ok lx /\
    current_is Is_Eof (tokens_ lx) = true /\
    count_tokens Is_Indent (tokens_ lx) = 1%nat /\
    count_tokens Is_Dedent (tokens_ lx) = 0%nat.
Proof.
  eexists. split; [apply trailing_blanks_run|]. cbn [tokens_].
  assert (forall p j, p token_type.Eof = false ->
            count_tokens p (repeat token_type.Eof j) = 0%nat) as Hrep.
  { intros p j Hp. induction j as [|j IH]; [reflexivity|].
    unfold count_tokens in *. simpl. rewrite Hp. exact IH. }
  repeat split.
  - rewrite repeat_snoc, app_assoc. apply current_is_snoc.
  - unfold count_tokens in *. rewrite List.filter_app, length_app.
    rewrite (Hrep Is_Indent (S k) eq_refl). reflexivity.
  - unfold count_tokens in *. rewrite List.filter_app, length_app.
    rewrite (Hrep Is_Dedent (S k) eq_refl). reflexivity.
Qed.

(** [ParseString] on a literal whose closing quote never comes: at the
    end of the stream [get] keeps answering [EOF], which is not the quote,
    so no amount of fuel lets the loop finish. *)
Lemma ParseString_loop_unterminated fuel quote body str :
  quote <> EOF_char -> ~ In quote body ->
  ParseString_loop fuel quote body str = OutOfFuel.
Proof.
  intros Hq. revert body str.
  induction fuel as [|fuel IH]; intros body str Hin; [reflexivity|].
  cbn [ParseString_loop get].
  assert (Ascii.eqb (to_char (hd_error body)) quote = false) as ->.
  { apply Ascii.eqb_neq. destruct body as [|c rest]; simpl.
    - congruence.
    - intros ->. apply Hin. left. reflexivity. }
  assert (~ In quote (tl body)) as Htl.
  { destruct body; simpl; [auto|]. intros H. apply Hin. right. exact H. }
  assert (~ In quote (tl (tl body))) as Htl2.
  { destruct (tl body); simpl; [auto|]. intros H. apply Htl. right. exact H. }
  repeat (match goal with |- context [if ?b then _ else _] => destruct b end);
    apply IH; assumption.
Qed.

Lemma ParseString_unterminated fuel quote body :
  quote = squote \/ quote = dquote -> ~ In quote body ->
  ParseString fuel (quote :: body) = OutOfFuel.
Proof.
  intros Hq Hin. unfold ParseString, get. simpl.
  apply ParseString_loop_unterminated; [|exact Hin].
  destruct Hq as [-> | ->]; discriminate.
Qed.

(** A literal that is closed is read in as many steps as it has characters. *)
Example terminated_string_is_read :
  tokens_of (Lexer_new 4 (src "'abc'")) = [token_type.String "abc"].
Proof. reflexivity. Qed.

(** C3. An unterminated string literal does not raise [LexerError]: on the
    input ['abc] the constructor of the lexer never returns, whatever the
    fuel. *)
Theorem unterminated_string_diverges fuel :
  Lexer_new fuel (src "'abc") = OutOfFuel.
Proof.
  unfold Lexer_new, NextToken. cbn -[ParseString].
  change (src "'abc") with (squote :: src "abc").
  rewrite ParseString_unterminated; [reflexivity | auto |].
  cbn. intros [H|[H|[H|[]]]]; discriminate.
Qed.

End LexerFacts.

(* ===================================================================== *)
(** * The runtime and the evaluator: facts *)
(* ===================================================================== *)

Section ComparisonFacts.
Import runtime ast.

(** C4. [Equal] is what the spec says of it: like primitives are compared
    by value, two nones are equal, an instance on the left whose class has
    [__eq__] with one parameter is asked, and every other pair is a runtime
    error.  [Less] likewise with [<] and [__lt__]; it has no rule for two
    nones, which fall under the runtime error. *)
Theorem Equal_Less_meet_spec exec lhs rhs st :
  Equal exec lhs rhs st = Equal_spec exec lhs rhs st /\
  Less exec lhs rhs st = Less_spec exec lhs rhs st.
Proof.
  split.
  - destruct lhs as [| | | | |self cls], rhs; try reflexivity;
      unfold Equal, Equal_spec; simpl;
      destruct (HasMethod cls "__eq__" 1); reflexivity.
  - destruct lhs as [| | | | |self cls], rhs; try reflexivity;
      unfold Less, Less_spec; simpl;
      destruct (HasMethod cls "__lt__" 1); reflexivity.
Qed.

(** C10. Dunder dispatch looks at the left operand only: with a primitive
    or none on the left and an instance on the right, [Equal] and [Less]
    raise their runtime error in the state they were called in, whatever
    the class of the instance defines and whatever running a method body
    would do. *)
Theorem dunder_dispatch_left_biased exec lhs self cls st :
  primitive_or_none lhs = true ->
  Equal exec lhs (HInstance self cls) st = RuntimeError "no viable equal operator" st /\
  Less exec lhs (HInstance self cls) st = RuntimeError "no viable comparator" st.
Proof.
  destruct lhs; simpl; intros H; try discriminate; split; reflexivity.
Qed.

End ComparisonFacts.

Section EvaluatorFacts.
Import runtime ast.
Variable order : ArgOrder.

(** C5. Short-circuit purity.  When [L] is falsy, [And L R] is [False] in
    the very state [L] left behind, for every [R]; when [L] is truthy,
    [Or L R] is [True] in that state, for every [R].  Whatever [And] or
    [Or] returns is a [Bool]. *)
Theorem short_circuit_purity L R :
  (forall fuel st l st1,
      Execute order fuel L st = Normal l st1 -> IsTrue l = false ->
      Execute order (S fuel) (And L R) st = Normal (HBool false) st1) /\
  (forall fuel st l st1,
      Execute order fuel L st = Normal l st1 -> IsTrue l = true ->
      Execute order (S fuel) (Or L R) st = Normal (HBool true) st1) /\
  (forall fuel st v st',
      Execute order fuel (And L R) st = Normal v st' \/
      Execute order fuel (Or L R) st = Normal v st' ->
      exists b, v = HBool b).
Proof.
  repeat split.
  - intros fuel st l st1 HL Hl. simpl. rewrite HL. simpl. rewrite Hl. reflexivity.
  - intros fuel st l st1 HL Hl. simpl. rewrite HL. simpl. rewrite Hl. reflexivity.
  - intros [|fuel] st v st' [H|H]; simpl in H; try discriminate;
      destruct (Execute order fuel L st) as [l st1| | | |]; simpl in H;
      try discriminate.
    + destruct (IsTrue l).
      * destruct (Execute order fuel R st1); simpl in H; try discriminate.
        injection H as <- _. eauto.
      * injection H as <- _. eauto.
    + destruct (negb (IsTrue l)).
      * destruct (Execute order fuel R st1); simpl in H; try discriminate.
        injection H as <- _. eauto.
      * injection H as <- _. eauto.
Qed.

(** C8. A [NewInstance] whose class has no [__init__] of the arity of the
    call returns its instance without touching the arguments: the state
    is the one it started in, for every list of argument expressions. *)
Theorem NewInstance_skips_arguments fuel self cls args st :
  HasMethod cls INIT_METHOD (length args) = false ->
  Execute order (S fuel) (NewInstance self cls args) st = Normal (HInstance self cls) st.
Proof. intros H. simpl. rewrite H. reflexivity. Qed.

Lemma VariableValue_Execute_pure dotted_ids closure_ptr st v st1 :
  VariableValue_Execute dotted_ids closure_ptr st = Normal v st1 -> st1 = st.
Proof.
  revert closure_ptr. induction dotted_ids as [|id rest IH]; intros closure_ptr;
    simpl; [discriminate|].
  destruct rest as [|id' rest'].
  - destruct (deref closure_ptr st !! id); [|discriminate]. intros [= _ <-]. reflexivity.
  - destruct (deref closure_ptr st !! id) as [w|]; [|discriminate].
    destruct (TryAs_ClassInstance w) as [[a c]|]; [|discriminate]. apply IH.
Qed.

(** C9. A [FieldAssignment] whose object path resolves to something that
    is not an instance raises nothing and returns none in the state it
    started in, for every right-hand side. *)
Theorem FieldAssignment_on_non_instance fuel object field_name rv st v st1 :
  VariableValue_Execute object ThisClosure st = Normal v st1 ->
  TryAs_ClassInstance v = None ->
  Execute order (S fuel) (FieldAssignment object field_name rv) st = Normal HNone st.
Proof.
  intros Hobj Hv. simpl. rewrite Hobj. simpl. rewrite Hv.
  apply VariableValue_Execute_pure in Hobj. subst. reflexivity.
Qed.

(** What does hold of [NewInstance]: with a matching [__init__] the
    arguments are evaluated and [__init__] is called on them before the
    instance is returned; without one, the instance comes back with the
    fields it already has, which are none if it has not been used. *)
Lemma NewInstance_runs_init fuel self cls args st :
  HasMethod cls INIT_METHOD (length args) = true ->
  Execute order (S fuel) (NewInstance self cls args) st =
  do (actual_args, st1) <- ExecuteArguments (Execute order fuel) args st;
  do (_r, st2) <- Call (Execute order fuel) self cls INIT_METHOD actual_args st1;
  Normal (HInstance self cls) st2.
Proof. intros H. cbn [Execute]. rewrite H. reflexivity. Qed.

Lemma NewInstance_unused_has_no_fields fuel self cls args st :
  HasMethod cls INIT_METHOD (length args) = false ->
  fields_ st !! self = None ->
  exists st',
    Execute order (S fuel) (NewInstance self cls args) st = Normal (HInstance self cls) st' /\
    Fields self st' = ∅.
Proof.
  intros H Hunused. exists st. cbn [Execute]. rewrite H. split; [reflexivity|].
  unfold Fields. rewrite Hunused. reflexivity.
Qed.

(** C6. [NewInstance] does not make a new instance each time it runs: the
    node owns one [ClassInstance] and hands out that same object.  [Person]
    has no [__init__], yet the second [f.make()] returns an instance whose
    fields already hold the [name] assigned through the first. *)
Theorem NewInstance_reuses_instance :
  HasMethod sample.Person INIT_METHOD 0 = false /\
  exists st1 st2,
    ExecuteStatements (Execute order 6) sample.first_use sample.empty_state
    = Normal HNone st1 /\
    Execute order 6 sample.make st1 = Normal (HInstance 1%nat sample.Person) st2 /\
    Execute order 1 sample.new_Person st2 = Normal (HInstance 1%nat sample.Person) st2 /\
    Fields 1%nat st2 !! "name" = Some (HString "Ivan").
Proof.
  split; [reflexivity|].
  destruct order; do 2 eexists; (split; [vm_compute; reflexivity|]);
    (split; [vm_compute; reflexivity|]); split; vm_compute; reflexivity.
Qed.

(** ** A return-carrier in flight passes every node but [MethodBody] *)

Lemma ExecuteStatements_throws exec before s after st v0 st1 v st2 :
  ExecuteStatements exec before st = Normal v0 st1 ->
  exec s st1 = Thrown v st2 ->
  ExecuteStatements exec (before ++ s :: after) st = Thrown v st2.
Proof.
  intros Hbefore Hs. revert st Hbefore.
  induction before as [|b before IH]; intros st; simpl.
  - intros [= _ <-]. rewrite Hs. reflexivity.
  - destruct (exec b st) as [w st'| | | |]; simpl; try discriminate. apply IH.
Qed.

Lemma ExecuteArguments_throws exec before s after st vs st1 v st2 :
  ExecuteArguments exec before st = Normal vs st1 ->
  exec s st1 = Thrown v st2 ->
  ExecuteArguments exec (before ++ s :: after) st = Thrown v st2.
Proof.
  intros Hbefore Hs. revert st vs Hbefore.
  induction before as [|b before IH]; intros st vs; simpl.
  - intros [= _ <-]. rewrite Hs. reflexivity.
  - destruct (exec b st) as [w st'| | | |]; simpl; try discriminate.
    destruct (ExecuteArguments exec before st') as [ws st''| | | |] eqn:Hrest;
      simpl; try discriminate.
    intros [= _ <-]. rewrite (IH st' ws Hrest). reflexivity.
Qed.

Lemma AppendByStatement_throws exec print ss s st v st2 :
  exec s st = Thrown v st2 ->
  AppendByStatement exec print ss s st = Thrown v st2.
Proof. intros Hs. unfold AppendByStatement. rewrite Hs. reflexivity. Qed.

Lemma AppendRest_throws exec print ss before s after st ss1 st1 v st2 :
  AppendRest exec print ss before st = Normal ss1 st1 ->
  exec s st1 = Thrown v st2 ->
  AppendRest exec print ss (before ++ s :: after) st = Thrown v st2.
Proof.
  intros Hbefore Hs. revert ss st Hbefore.
  induction before as [|b before IH]; intros ss st; simpl.
  - intros [= _ <-]. rewrite (AppendByStatement_throws _ _ _ _ _ _ _ Hs). reflexivity.
  - destruct (AppendByStatement exec print (ss +:+ " ") b st) as [w st'| | | |];
      simpl; try discriminate.
    apply IH.
Qed.

Lemma AppendAll_throws exec print before s after st st1 v st2 :
  match before with
  | [] => st1 = st
  | _ :: _ => exists ss, AppendAll exec print before st = Normal ss st1
  end ->
  exec s st1 = Thrown v st2 ->
  AppendAll exec print (before ++ s :: after) st = Thrown v st2.
Proof.
  intros Hbefore Hs. destruct before as [|b before]; simpl in *.
  - subst st1. rewrite (AppendByStatement_throws _ _ _ _ _ _ _ Hs). reflexivity.
  - destruct Hbefore as [ss Hbefore].
    destruct (AppendByStatement exec print EmptyString b st) as [w st'| | | |];
      simpl in *; try discriminate.
    eapply AppendRest_throws; eauto.
Qed.

Lemma length_hole {A} (before after : list A) x y :
  length (before ++ x :: after) = length (before ++ y :: after).
Proof. rewrite !length_app. reflexivity. Qed.

(** One frame: if control has come to the hole and what is there throws an
    ObjectHolder, the node around it throws the same holder in the same
    state; nothing that follows the hole in the node is run. *)
Lemma fill_throws fuel f s st st1 v st2 :
  enters order fuel f st st1 ->
  Execute order fuel s st1 = Thrown v st2 ->
  Execute order (S fuel) (fill f s) st = Thrown v st2.
Proof.
  intros Henter Hs.
  destruct f; cbn [fill enters] in *;
    try (subst st1; cbn [Execute]; rewrite Hs; reflexivity).
  - destruct Henter as (a & cls & Hobj). cbn [Execute]. rewrite Hobj. simpl.
    rewrite Hs. reflexivity.
  - cbn [Execute].
    rewrite (AppendAll_throws _ _ before s after st st1 v st2 Henter Hs). reflexivity.
  - destruct Henter as (a & cls & st' & vs & Hobj & Hhas & Hargs).
    cbn [Execute]. rewrite Hobj. simpl.
    rewrite (length_hole before after s NoneLiteral), Hhas.
    rewrite (ExecuteArguments_throws _ before s after _ _ _ _ _ Hargs Hs). reflexivity.
  - destruct Henter as (Hhas & vs & Hargs). cbn [Execute].
    rewrite (length_hole before after s NoneLiteral), Hhas.
    rewrite (ExecuteArguments_throws _ before s after _ _ _ _ _ Hargs Hs). reflexivity.
  - subst st1. cbn [Execute].
    rewrite (AppendByStatement_throws _ _ _ _ _ _ _ Hs). reflexivity.
  - destruct Henter as (l & Hl). cbn [Execute]. rewrite Hl. simpl. rewrite Hs. reflexivity.
  - destruct Henter as (l & Hl). cbn [Execute]. rewrite Hl. simpl. rewrite Hs. reflexivity.
  - destruct Henter as (l & Hl). cbn [Execute]. rewrite Hl. simpl. rewrite Hs. reflexivity.
  - destruct Henter as (l & Hl). cbn [Execute]. rewrite Hl. simpl. rewrite Hs. reflexivity.
  - destruct Henter as (l & Hl & Ht). cbn [Execute]. rewrite Hl. simpl. rewrite Ht. simpl.
    rewrite Hs. reflexivity.
  - destruct Henter as (l & Hl & Ht). cbn [Execute]. rewrite Hl. simpl. rewrite Ht.
    rewrite Hs. reflexivity.
  - destruct Henter as (v0 & Hbefore). cbn [Execute].
    eapply ExecuteStatements_throws; eauto.
  - destruct Henter as (c & Hc & Ht). cbn [Execute]. rewrite Hc. simpl. rewrite Ht.
    exact Hs.
  - destruct Henter as (c & Hc & Ht). cbn [Execute]. rewrite Hc. simpl. rewrite Ht.
    exact Hs.
  - cbn [Execute]. destruct order.
    + subst st1. rewrite Hs. reflexivity.
    + destruct Henter as (r & Hr). rewrite Hr. simpl. rewrite Hs. reflexivity.
  - cbn [Execute]. destruct order.
    + destruct Henter as (l & Hl). rewrite Hl. simpl. rewrite Hs. reflexivity.
    + subst st1. rewrite Hs. reflexivity.
Qed.

(** A [Return] reached along [path] throws the value of its expression
    out of the whole of [plug path _]. *)
Lemma Return_propagates n path e st st1 v st2 :
  reaches order n path st st1 ->
  Execute order n e st1 = Normal v st2 ->
  Execute order (S n + length path) (plug path (Return e)) st = Thrown v st2.
Proof.
  intros Hreach He. revert st Hreach.
  induction path as [|f inner IH]; intros st; cbn [reaches plug fold_right length].
  - intros ->. rewrite Nat.add_0_r. cbn [Execute]. rewrite He. reflexivity.
  - intros (st' & Henter & Hinner).
    replace (S n + S (length inner))%nat with (S (S n + length inner)) by lia.
    eapply fill_throws; eauto.
Qed.

(** C1. Return unwind.  Let a [Return] sit anywhere below a [MethodBody],
    with no other [MethodBody] in between, and let control reach it: then
    the [MethodBody] returns the value of the [Return]'s expression, in
    the state in which that expression finished.  The statements after
    the [Return] in the enclosing nodes ([after], the right operands, the
    other branch) are arbitrary and leave no trace: they are not run. *)
Theorem return_unwind n path e st st1 v st2 :
  reaches order n path st st1 ->
  Execute order n e st1 = Normal v st2 ->
  Execute order (S (S n + length path)) (MethodBody (plug path (Return e))) st
  = Normal v st2.
Proof.
  intros Hreach He. cbn [Execute].
  rewrite (Return_propagates n path e st st1 v st2 Hreach He). reflexivity.
Qed.

End EvaluatorFacts.

Section Witnesses.
Import runtime ast.

Lemma dunder_dispatch_left_biased_witness :
  primitive_or_none (HNumber 1) = true /\
  HasMethod sample.Loud "__eq__" 1 = true /\
  HasMethod sample.Loud "__lt__" 1 = true /\
  Equal (Execute LeftToRight 9) (HNumber 1) (HInstance 2%nat sample.Loud)
        sample.empty_state
  = RuntimeError "no viable equal operator" sample.empty_state /\
  Less (Execute LeftToRight 9) (HNumber 1) (HInstance 2%nat sample.Loud)
       sample.empty_state
  = RuntimeError "no viable comparator" sample.empty_state.
Proof.
  split; [reflexivity|]. split; [reflexivity|]. split; [reflexivity|].
  apply (dunder_dispatch_left_biased (Execute LeftToRight 9) (HNumber 1) 2%nat
           sample.Loud sample.empty_state).
  reflexivity.
Defined.

Lemma short_circuit_purity_witness :
  Execute LeftToRight 1 (NumericConst 0) sample.empty_state
  = Normal (HNumber 0) sample.empty_state /\
  IsTrue (HNumber 0) = false /\
  Execute LeftToRight 2 (And (NumericConst 0) sample.side_effect) sample.empty_state
  = Normal (HBool false) sample.empty_state /\
  Execute RightToLeft 1 (StringConst "x") sample.empty_state
  = Normal (HString "x") sample.empty_state /\
  IsTrue (HString "x") = true /\
  Execute RightToLeft 2 (Or (StringConst "x") sample.side_effect) sample.empty_state
  = Normal (HBool true) sample.empty_state.
Proof.
  split; [reflexivity|]. split; [reflexivity|].
  split.
  { apply (proj1 (short_circuit_purity LeftToRight (NumericConst 0) sample.side_effect)
             1%nat sample.empty_state (HNumber 0) sample.empty_state);
      reflexivity. }
  split; [reflexivity|]. split; [reflexivity|].
  apply (proj1 (proj2 (short_circuit_purity RightToLeft (StringConst "x") sample.side_effect))
           1%nat sample.empty_state (HString "x") sample.empty_state);
    reflexivity.
Defined.

Lemma NewInstance_skips_arguments_witness :
  HasMethod sample.Person INIT_METHOD (length [sample.side_effect]) = false /\
  Execute LeftToRight 4 (NewInstance 1%nat sample.Person [sample.side_effect])
          sample.empty_state
  = Normal (HInstance 1%nat sample.Person) sample.empty_state.
Proof.
  split; [reflexivity|].
  apply (NewInstance_skips_arguments LeftToRight 3 1%nat sample.Person [sample.side_effect]
           sample.empty_state).
  reflexivity.
Defined.

Lemma FieldAssignment_on_non_instance_witness :
  VariableValue_Execute ["n"] ThisClosure sample.n_is_seven
  = Normal (HNumber 7) sample.n_is_seven /\
  TryAs_ClassInstance (HNumber 7) = None /\
  Execute LeftToRight 4 (FieldAssignment ["n"] "x" sample.side_effect) sample.n_is_seven
  = Normal HNone sample.n_is_seven.
Proof.
  split; [vm_compute; reflexivity|]. split; [reflexivity|].
  apply (FieldAssignment_on_non_instance LeftToRight 3 ["n"] "x" sample.side_effect
           sample.n_is_seven (HNumber 7) sample.n_is_seven).
  - vm_compute. reflexivity.
  - reflexivity.
Defined.

Lemma return_unwind_witness :
  reaches LeftToRight 1 sample.to_first_return sample.n_is_seven
          (write ("a" +:+ LF) sample.n_is_seven) /\
  Execute LeftToRight 1 (StringConst "big") (write ("a" +:+ LF) sample.n_is_seven)
  = Normal (HString "big") (write ("a" +:+ LF) sample.n_is_seven) /\
  Execute LeftToRight 6
          (MethodBody (plug sample.to_first_return (Return (StringConst "big"))))
          sample.n_is_seven
  = Normal (HString "big") (write ("a" +:+ LF) sample.n_is_seven).
Proof.
  assert (reaches LeftToRight 1 sample.to_first_return sample.n_is_seven
            (write ("a" +:+ LF) sample.n_is_seven)) as Hreach.
  { exists (write ("a" +:+ LF) sample.n_is_seven). split.
    - exists HNone. vm_compute. reflexivity.
    - exists (write ("a" +:+ LF) sample.n_is_seven). split.
      + exists (HNumber 7). split; vm_compute; reflexivity.
      + exists (write ("a" +:+ LF) sample.n_is_seven). split.
        * exists HNone. reflexivity.
        * reflexivity. }
  split; [exact Hreach|]. split; [reflexivity|].
  apply (return_unwind LeftToRight 1 sample.to_first_return (StringConst "big")
           sample.n_is_seven (write ("a" +:+ LF) sample.n_is_seven)
           (HString "big") (write ("a" +:+ LF) sample.n_is_seven)).
  - exact Hreach.
  - reflexivity.
Defined.

End Witnesses.

(* ===================================================================== *)
(** * The lexer: further properties *)
(* ===================================================================== *)

Section LexerMore.
Import parse.

(** [operator==] on tokens is equality of tokens: the alternative and,
    where there is one, the value; [operator!=] is its negation. *)
Theorem Token_eq_is_equality lhs rhs :
  (Token_eq lhs rhs = true <-> lhs = rhs) /\
  (Token_ne lhs rhs = true <-> lhs <> rhs).
Proof.
  assert (Token_eq lhs rhs = true <-> lhs = rhs) as Heq.
  { unfold Token_eq.
    destruct lhs, rhs; simpl; split; intros H; try discriminate; try reflexivity.
    - apply Z.eqb_eq in H. congruence.
    - injection H as ->. apply Z.eqb_refl.
    - apply String.eqb_eq in H. congruence.
    - injection H as ->. apply String.eqb_refl.
    - apply Ascii.eqb_eq in H. congruence.
    - injection H as ->. apply Ascii.eqb_refl.
    - apply String.eqb_eq in H. congruence.
    - injection H as ->. apply String.eqb_refl. }
  split; [exact Heq|].
  unfold Token_ne. destruct (Token_eq lhs rhs) eqn:E; simpl; split; intros H.
  - discriminate.
  - exfalso. apply H, Heq. reflexivity.
  - intros Hc. apply Heq in Hc. congruence.
  - reflexivity.
Qed.

Lemma indent_stack_balance_witness :
  exists lx,
    Lexer_run 0 6 (src ("a" +:+ LF +:+ "    b" +:+ LF +:+ "  c")) = Ok lx /\
    (count_tokens Is_Indent (tokens_ lx) + 1 =
     count_tokens Is_Dedent (tokens_ lx) + length (indent_sizes_ lx))%nat.
Proof.
  eexists. split.
  - vm_compute. reflexivity.
  - apply (indent_stack_balance 0 6 (src ("a" +:+ LF +:+ "    b" +:+ LF +:+ "  c"))).
    vm_compute. reflexivity.
Defined.

(** After construction and [n] calls the lexer holds [n + 1] tokens, and
    what was emitted stays: later calls only append. *)
Theorem tokens_only_grow fuel n k input lx lx' :
  Lexer_run fuel n input = Ok lx ->
  Lexer_run fuel (n + k) input = Ok lx' ->
  length (tokens_ lx) = S n /\
  exists more, tokens_ lx' = tokens_ lx ++ more /\ length more = k.
Proof.
  intros Hn Hk. split.
  - clear Hk. revert lx Hn. induction n as [|n IH]; intros lx; simpl.
    + unfold Lexer_new. intros H.
      apply NextToken_appends in H as (t & -> & _). reflexivity.
    + destruct (Lexer_run fuel n input) as [lx0| | | |]; simpl; try discriminate.
      intros H. apply NextToken_appends in H as (t & -> & _).
      rewrite length_app, (IH lx0 eq_refl). simpl. lia.
  - revert lx' Hk. induction k as [|k IH]; intros lx'.
    + rewrite Nat.add_0_r, Hn. intros [= <-]. exists []. rewrite app_nil_r. auto.
    + replace (n + S k)%nat with (S (n + k)) by lia. simpl.
      destruct (Lexer_run fuel (n + k) input) as [lx0| | | |]; simpl; try discriminate.
      intros H. destruct (IH lx0 eq_refl) as (more & Hmore & Hlen).
      apply NextToken_appends in H as (t & -> & _).
      exists (more ++ [t]). rewrite Hmore, app_assoc, length_app. simpl.
      split; [reflexivity | lia].
Qed.

Lemma tokens_only_grow_witness :
  exists lx lx',
    Lexer_run 0 1 (src "x = 1") = Ok lx /\
    Lexer_run 0 (1 + 2) (src "x = 1") = Ok lx' /\
    length (tokens_ lx) = 2%nat /\
    exists more, tokens_ lx' = tokens_ lx ++ more /\ length more = 2%nat.
Proof.
  do 2 eexists. split; [vm_compute; reflexivity|]. split; [vm_compute; reflexivity|].
  apply (tokens_only_grow 0 1 2 (src "x = 1")); vm_compute; reflexivity.
Defined.

Lemma skip_spaces_nonneg input acc :
  0 <= acc -> 0 <= fst (skip_spaces input acc).
Proof.
  revert acc. induction input as [|c rest IH]; intros acc Hacc; simpl; [exact Hacc|].
  destruct (Ascii.eqb c space); simpl; [|exact Hacc].
  apply IH. apply Z.mod_pos_bound. reflexivity.
Qed.

Lemma MoveToNextToken_loop_nonneg fuel skip_blank input space_count input' :
  MoveToNextToken_loop fuel skip_blank input = Some (space_count, input') ->
  0 <= space_count.
Proof.
  revert input. induction fuel as [|fuel IH]; intros input; simpl; [discriminate|].
  pose proof (skip_spaces_nonneg input 0 (Z.le_refl 0)) as Hs.
  destruct (skip_spaces input 0) as [n in1]. simpl in Hs.
  destruct (peek_is _ nl && skip_blank).
  - apply IH.
  - intros [= <- _]. exact Hs.
Qed.

Lemma MoveToNextToken_rooted lx lx1 :
  rooted lx -> MoveToNextToken lx = Ok lx1 -> rooted lx1.
Proof.
  intros [Hcur Hstack]. unfold MoveToNextToken.
  destruct (MoveToNextToken_loop _ _ _) as [[space_count input']|] eqn:Hloop;
    [|discriminate].
  apply MoveToNextToken_loop_nonneg in Hloop.
  destruct (_ && negb (space_count mod 2 =? 0)); [discriminate|].
  destruct (negb (empty (tokens_ lx)) && current_is Is_Newline (tokens_ lx)).
  - destruct (indent_sizes_ lx) as [|top below] eqn:Hst; [discriminate|].
    destruct (negb (space_count =? top)); intros [= <-]; split; simpl; auto;
      rewrite Hst; exact Hstack.
  - intros [= <-]; split; simpl; auto.
Qed.

Lemma MoveToNextToken_errors lx :
  rooted lx ->
  match MoveToNextToken lx with
  | Ok _ => True
  | LexerError what => what = "indent size must be even"%string
  | StdError _ | Undefined | OutOfFuel => False
  end.
Proof.
  intros [_ (above & Hstack)].
  pose proof (MoveToNextToken_terminates lx) as Hterm.
  unfold MoveToNextToken in *.
  destruct (MoveToNextToken_loop _ _ _) as [[space_count input']|]; [|congruence].
  destruct (_ && negb (space_count mod 2 =? 0)); [reflexivity|].
  destruct (negb (empty (tokens_ lx)) && current_is Is_Newline (tokens_ lx)); [|exact I].
  rewrite Hstack. destruct above; simpl; destruct (negb _); exact I.
Qed.

Lemma ParseLexem_errors input :
  (let c := to_char (peek input) in
   Ascii.eqb c "!"%char || Ascii.eqb c "<"%char
   || Ascii.eqb c ">"%char || Ascii.eqb c "="%char) = true ->
  exists t rest, ParseLexem input = Ok (t, rest).
Proof.
  cbv zeta. intros Hc. unfold ParseLexem, get. fold (peek input).
  destruct (peek_is (tl input) "="%char) eqn:Hnext; [|eauto].
  apply peek_is_cons in Hnext as [rest' Hrest']. rewrite Hrest'. simpl.
  repeat (apply orb_true_iff in Hc as [Hc|Hc]);
    apply Ascii.eqb_eq in Hc; rewrite Hc; simpl; eauto.
Qed.

Lemma ParseIndent_rooted lx t stack :
  rooted lx -> resolved lx = false ->
  ParseIndent (current_indent_size_ lx) (indent_sizes_ lx) = Ok (t, stack) ->
  exists above, stack = above ++ [0].
Proof.
  intros [Hcur (above & Hstack)] Hres. unfold ParseIndent, resolved in *.
  rewrite Hstack in *.
  destruct above as [|top above]; simpl in *.
  - destruct (current_indent_size_ lx >? 0) eqn:Hgt.
    + intros [= _ <-]. exists [to_uint8 (current_indent_size_ lx)]. reflexivity.
    + apply Z.eqb_neq in Hres. rewrite Z.gtb_ltb in Hgt. apply Z.ltb_ge in Hgt. lia.
  - destruct (current_indent_size_ lx >? top); intros [= _ <-].
    + exists (to_uint8 (current_indent_size_ lx) :: top :: above). reflexivity.
    + exists above. reflexivity.
Qed.

(** One call of [NextToken] from a rooted state: it ends rooted, or with
    one of the two exceptions the lexer can raise, or is still reading a
    string literal; it never runs into undefined behaviour. *)
Lemma NextToken_errors fuel lx :
  rooted lx ->
  match NextToken fuel lx with
  | Ok lx' => rooted lx'
  | LexerError what => what = "indent size must be even"%string
  | StdError what => what = "stoi"%string
  | Undefined => False
  | OutOfFuel => True
  end.
Proof.
  intros Hroot. unfold NextToken.
  pose proof (MoveToNextToken_errors lx Hroot) as Hmove.
  destruct (MoveToNextToken lx) as [lx1| | | |] eqn:Hm; simpl;
    try exact Hmove; try contradiction.
  pose proof (MoveToNextToken_rooted lx lx1 Hroot Hm) as Hroot1.
  assert (forall rest t, rooted (push_back lx1 rest t)) as Hpush.
  { intros rest t. destruct Hroot1 as [H1 H2]. split; simpl; assumption. }
  destruct (indent_sizes_ lx1) as [|top below] eqn:Hstack.
  { destruct Hroot1 as [_ (above & H)]. rewrite Hstack in H. destruct above; discriminate. }
  destruct (negb (current_indent_size_ lx1 =? top)) eqn:Hres.
  { rewrite <- Hstack.
    destruct (ParseIndent _ _) as [[t stack]| | | |] eqn:Hp; simpl.
    - eapply ParseIndent_rooted in Hp; eauto.
      + split; simpl; [apply Hroot1 | exact Hp].
      + unfold resolved. rewrite Hstack. apply negb_true_iff in Hres. exact Hres.
    - unfold ParseIndent in Hp. rewrite Hstack in Hp. destruct (_ >? _); discriminate.
    - unfold ParseIndent in Hp. rewrite Hstack in Hp. destruct (_ >? _); discriminate.
    - unfold ParseIndent in Hp. rewrite Hstack in Hp. destruct (_ >? _); discriminate.
    - exact I. }
  destruct (isdigit _).
  { unfold ParseDigit. destruct (read_digits _ _) as [v rest].
    destruct (v >? INT_MAX); simpl; [reflexivity | apply Hpush]. }
  destruct (isalpha _ || Ascii.eqb _ "_"%char).
  { destruct (ParseIdentifier _) as [t rest]. apply Hpush. }
  destruct (Ascii.eqb _ squote || Ascii.eqb _ dquote).
  { unfold ParseString, get.
    assert (forall f q input str,
              match ParseString_loop f q input str with
              | Ok _ | OutOfFuel => True
              | _ => False
              end) as Hloop.
    { induction f as [|f IH]; intros q input str; simpl; [exact I|].
      repeat (match goal with |- context [if ?b then _ else _] => destruct b end);
        try apply IH; exact I. }
    specialize (Hloop fuel (to_char (hd_error (input_ lx1))) (tl (input_ lx1)) []).
    destruct (ParseString_loop _ _ _ _) as [[t rest]| | | |]; simpl;
      try contradiction; [apply Hpush | exact I]. }
  destruct (Ascii.eqb _ "!"%char || Ascii.eqb _ "<"%char
            || Ascii.eqb _ ">"%char || Ascii.eqb _ "="%char) eqn:Hc.
  { destruct (ParseLexem_errors (input_ lx1) Hc) as (t & rest & ->). simpl. apply Hpush. }
  destruct (Ascii.eqb _ nl); [apply Hpush|].
  destruct (Ascii.eqb _ EOF_char); apply Hpush.
Qed.


Lemma MoveToNextToken_indent lx lx1 :
  MoveToNextToken lx = Ok lx1 ->
  tokens_ lx1 = tokens_ lx /\
  indent_sizes_ lx1 = indent_sizes_ lx /\
  (current_is Is_Newline (tokens_ lx) = false ->
   current_indent_size_ lx1 = current_indent_size_ lx).
Proof.
  unfold MoveToNextToken.
  destruct (MoveToNextToken_loop _ _ _) as [[space_count input']|]; [|discriminate].
  destruct (_ && negb (space_count mod 2 =? 0)); [discriminate|].
  destruct (current_is Is_Newline (tokens_ lx)); rewrite ?andb_false_r, ?andb_true_r.
  - destruct (negb (empty (tokens_ lx))).
    + destruct (indent_sizes_ lx); [discriminate|].
      destruct (negb _); intros [= <-]; simpl; repeat split; discriminate.
    + intros [= <-]; simpl; repeat split; discriminate.
  - intros [= <-]; simpl; auto.
Qed.

(** What one call of [NextToken] has done, by the branch it took. *)
Lemma NextToken_cases fuel lx lx' :
  NextToken fuel lx = Ok lx' ->
  exists lx1, MoveToNextToken lx = Ok lx1 /\
    ((resolved lx1 = false /\
      exists t stack,
        Is_indentation t = true /\
        lx' = mkLexer (input_ lx1) (current_indent_size_ lx1) stack (tokens_ lx1 ++ [t]))
     \/
     (resolved lx1 = true /\
      exists t rest,
        lx' = push_back lx1 rest t /\
        (is_layout t = false \/
         t = token_type.Newline \/
         (t = ParseEof (tokens_ lx1) /\ rest = input_ lx1 /\
          to_char (peek (input_ lx1)) = EOF_char)))).
Proof.
  unfold NextToken.
  destruct (MoveToNextToken lx) as [lx1| | | |] eqn:Hmove; simpl; try discriminate.
  intros H. exists lx1. split; [reflexivity|]. unfold resolved.
  destruct (indent_sizes_ lx1) as [|top below] eqn:Hstack; [discriminate|].
  destruct (current_indent_size_ lx1 =? top); cbn [negb] in H.
  2:{ left. split; [reflexivity|]. rewrite <- Hstack in H.
      destruct (ParseIndent _ _) as [[t stack]| | | |] eqn:Hp; cbn [bind] in H;
        try discriminate.
      injection H as <-. exists t, stack. split; [|reflexivity].
      apply ParseIndent_stack in Hp as [[-> _]|[-> _]]; reflexivity. }
  right. split; [reflexivity|].
  destruct (isdigit _).
  { destruct (ParseDigit _) as [[t rest]| | | |] eqn:Hp; simpl in H; try discriminate.
    injection H as <-. exists t, rest. split; [reflexivity|]. left.
    eapply ParseDigit_content; eauto. }
  destruct (isalpha _ || Ascii.eqb _ "_"%char).
  { pose proof (ParseIdentifier_content (input_ lx1)) as Hp.
    destruct (ParseIdentifier _) as [t rest]; simpl in Hp.
    injection H as <-. exists t, rest. auto. }
  destruct (Ascii.eqb _ squote || Ascii.eqb _ dquote).
  { destruct (ParseString _ _) as [[t rest]| | | |] eqn:Hp; simpl in H; try discriminate.
    injection H as <-. exists t, rest. split; [reflexivity|]. left.
    eapply ParseString_content; eauto. }
  destruct (Ascii.eqb _ "!"%char || Ascii.eqb _ "<"%char
            || Ascii.eqb _ ">"%char || Ascii.eqb _ "="%char).
  { destruct (ParseLexem _) as [[t rest]| | | |] eqn:Hp; simpl in H; try discriminate.
    injection H as <-. exists t, rest. split; [reflexivity|]. left.
    eapply ParseLexem_content; eauto. }
  destruct (Ascii.eqb _ nl).
  { simpl in H. injection H as <-. do 2 eexists. split; [reflexivity|]. auto. }
  destruct (Ascii.eqb _ EOF_char) eqn:Heof.
  { injection H as <-. do 2 eexists. split; [reflexivity|]. right. right.
    apply Ascii.eqb_eq in Heof. auto. }
  injection H as <-. do 2 eexists. split; [reflexivity|]. left. reflexivity.
Qed.

Lemma ParseEof_kind tokens :
  ParseEof tokens = token_type.Eof \/ ParseEof tokens = token_type.Newline.
Proof. unfold ParseEof. destruct (_ || _); auto. Qed.

(** When [NextToken] has just emitted [Eof], the stream is at its end and
    the indent is resolved. *)
Lemma NextToken_emitted_Eof fuel lx lx' :
  NextToken fuel lx = Ok lx' ->
  current_is Is_Eof (tokens_ lx') = true ->
  to_char (peek (input_ lx')) = EOF_char /\ resolved lx' = true.
Proof.
  intros H Heof. apply NextToken_cases in H as (lx1 & _ & [Hcase|Hcase]).
  - destruct Hcase as (_ & t & stack & Ht & ->). simpl in Heof.
    rewrite current_is_snoc in Heof. destruct t; discriminate.
  - destruct Hcase as (Hres & t & rest & -> & Hkind). simpl in Heof.
    rewrite current_is_snoc in Heof.
    destruct Hkind as [Hc | [-> | (_ & -> & Hpeek)]].
    + apply is_layout_false in Hc as (_ & _ & _ & Hc). congruence.
    + discriminate.
    + split; [exact Hpeek | exact Hres].
Qed.

Lemma NextToken_at_Eof fuel lx :
  resolved lx = true ->
  to_char (peek (input_ lx)) = EOF_char ->
  current_is Is_Eof (tokens_ lx) = true ->
  NextToken fuel lx = Ok (push_back lx (input_ lx) token_type.Eof).
Proof.
  destruct lx as [input current stack tokens]. unfold resolved. simpl.
  destruct stack as [|top below]; [discriminate|]. intros Hres Hpeek Heof.
  assert (empty tokens = false) as Hemp.
  { destruct tokens; [discriminate | reflexivity]. }
  assert (current_is Is_Newline tokens = false) as Hn.
  { unfold current_is in *. destruct (CurrentToken tokens) as [[]|]; auto; discriminate. }
  assert (MoveToNextToken_loop (S (length input)) false input = Some (0, input)) as Hloop.
  { destruct input as [|c rest]; [reflexivity|].
    simpl in Hpeek. subst c. reflexivity. }
  unfold NextToken, MoveToNextToken.
  cbn [tokens_ input_ indent_sizes_ current_indent_size_].
  rewrite Hemp, Hn. cbn [negb andb orb]. rewrite Hloop.
  cbn [bind tokens_ input_ indent_sizes_ current_indent_size_].
  rewrite Hres, Hpeek. cbn. unfold push_back, ParseEof. cbn.
  rewrite Hemp, Hn, Heof. reflexivity.
Qed.

(** [Eof] is final: once the lexer has emitted it, every further call
    emits [Eof] again and changes nothing else. *)
Theorem Eof_is_final fuel n k input lx :
  Lexer_run fuel n input = Ok lx ->
  current_is Is_Eof (tokens_ lx) = true ->
  Lexer_run fuel (n + k) input =
  Ok (mkLexer (input_ lx) (current_indent_size_ lx) (indent_sizes_ lx)
              (tokens_ lx ++ repeat token_type.Eof k)).
Proof.
  intros Hrun Heof.
  assert (to_char (peek (input_ lx)) = EOF_char /\ resolved lx = true) as [Hpeek Hres].
  { destruct n as [|n]; simpl in Hrun.
    - eapply NextToken_emitted_Eof; eauto.
    - destruct (Lexer_run fuel n input); simpl in Hrun; try discriminate.
      eapply NextToken_emitted_Eof; eauto. }
  induction k as [|k IH].
  - rewrite Nat.add_0_r, app_nil_r, Hrun. destruct lx; reflexivity.
  - replace (n + S k)%nat with (S (n + k)) by lia.
    cbn [Lexer_run]. rewrite IH. cbn [bind].
    rewrite NextToken_at_Eof; cbn [tokens_ input_ indent_sizes_ current_indent_size_].
    + unfold push_back. cbn [tokens_ input_ indent_sizes_ current_indent_size_].
      rewrite repeat_snoc, app_assoc. reflexivity.
    + unfold resolved in *. exact Hres.
    + exact Hpeek.
    + destruct k as [|k]; [rewrite app_nil_r; exact Heof|].
      rewrite repeat_snoc, app_assoc. apply current_is_snoc.
Qed.

Lemma Eof_is_final_witness :
  exists lx,
    Lexer_run 0 3 (src ("x" +:+ LF)) = Ok lx /\
    current_is Is_Eof (tokens_ lx) = true /\
    Lexer_run 0 (3 + 4) (src ("x" +:+ LF)) =
    Ok (mkLexer (input_ lx) (current_indent_size_ lx) (indent_sizes_ lx)
                (tokens_ lx ++ repeat token_type.Eof 4)).
Proof.
  eexists. split; [vm_compute; reflexivity|]. split; [vm_compute; reflexivity|].
  apply (Eof_is_final 0 3 4 (src ("x" +:+ LF))); vm_compute; reflexivity.
Defined.

Lemma CurrentToken_cons t tokens :
  CurrentToken (t :: tokens) =
  match CurrentToken tokens with Some x => Some x | Datatypes.None => Some t end.
Proof.
  unfold CurrentToken. revert t.
  induction tokens as [|x rest IH]; intros t; [reflexivity|].
  change (last (t :: x :: rest)) with (last (x :: rest)).
  rewrite IH. destruct (last rest); reflexivity.
Qed.

Lemma indentation_at_line_start_snoc prev tokens t :
  indentation_at_line_start prev (tokens ++ [t]) =
  indentation_at_line_start prev tokens
  && (negb (Is_indentation t)
      || match (match CurrentToken tokens with
                | Some x => Some x
                | Datatypes.None => prev
                end) with
         | Some p => Is_Newline p || Is_indentation p
         | Datatypes.None => false
         end).
Proof.
  revert prev. induction tokens as [|t1 rest IH]; intros prev.
  - simpl. rewrite andb_true_r. reflexivity.
  - cbn [app indentation_at_line_start]. rewrite IH, CurrentToken_cons.
    rewrite <- andb_assoc. destruct (CurrentToken rest); reflexivity.
Qed.

Lemma NextToken_indentation fuel lx lx' :
  NextToken fuel lx = Ok lx' ->
  (resolved lx = false -> current_is Is_indentation (tokens_ lx) = true) ->
  indentation_at_line_start None (tokens_ lx) = true ->
  (resolved lx' = false -> current_is Is_indentation (tokens_ lx') = true) /\
  indentation_at_line_start None (tokens_ lx') = true.
Proof.
  intros H Hq Hgood. apply NextToken_cases in H as (lx1 & Hmove & Hcase).
  apply MoveToNextToken_indent in Hmove as (Htok & Hstk & Hcur).
  destruct Hcase as [(Hres & t & stack & Ht & ->) | (Hres & t & rest & -> & Hkind)];
    simpl; rewrite indentation_at_line_start_snoc, Htok, Hgood; simpl.
  - split; [intros _; rewrite current_is_snoc; exact Ht|].
    apply orb_true_iff. right.
    destruct (current_is Is_Newline (tokens_ lx)) eqn:Hnl.
    + unfold current_is in Hnl. destruct (CurrentToken (tokens_ lx)); [|discriminate].
      rewrite Hnl. reflexivity.
    + assert (resolved lx = false) as Hres0.
      { unfold resolved in *. rewrite <- Hstk, <- (Hcur eq_refl). exact Hres. }
      specialize (Hq Hres0). unfold current_is in Hq.
      destruct (CurrentToken (tokens_ lx)); [|discriminate].
      rewrite Hq. apply orb_true_r.
  - split.
    + intros Hres'. unfold resolved in *. simpl in Hres'. congruence.
    + assert (Is_indentation t = false) as ->; [|reflexivity].
      destruct Hkind as [Hc | [-> | (-> & _)]].
      * apply is_layout_false in Hc as (_ & Hi & Hd & _).
        unfold Is_indentation. rewrite Hi, Hd. reflexivity.
      * reflexivity.
      * destruct (ParseEof_kind (tokens_ lx1)) as [-> | ->]; reflexivity.
Qed.

(** An [Indent] or a [Dedent] is never the first token and never follows
    a token of content or an [Eof]: it comes after a [Newline], or after
    the [Indent] or [Dedent] emitted by the call before. *)
Theorem indentation_only_at_line_start fuel n input lx :
  Lexer_run fuel n input = Ok lx ->
  indentation_at_line_start Datatypes.None (tokens_ lx) = true.
Proof.
  enough (Lexer_run fuel n input = Ok lx ->
          (resolved lx = false -> current_is Is_indentation (tokens_ lx) = true) /\
          indentation_at_line_start Datatypes.None (tokens_ lx) = true) as H
    by (intros Hrun; apply H, Hrun).
  revert lx. induction n as [|n IH]; intros lx; simpl.
  - unfold Lexer_new. intros H.
    eapply NextToken_indentation; [exact H | discriminate | reflexivity].
  - destruct (Lexer_run fuel n input) as [lx0| | | |]; simpl; try discriminate.
    intros H. destruct (IH lx0 eq_refl) as [Hq Hgood].
    eapply NextToken_indentation; eauto.
Qed.

Lemma indentation_only_at_line_start_witness :
  exists lx,
    Lexer_run 0 8 (src ("a" +:+ LF +:+ "    b" +:+ LF +:+ "  c")) = Ok lx /\
    indentation_at_line_start Datatypes.None (tokens_ lx) = true.
Proof.
  eexists. split; [vm_compute; reflexivity|].
  apply (indentation_only_at_line_start 0 8
           (src ("a" +:+ LF +:+ "    b" +:+ LF +:+ "  c"))).
  vm_compute. reflexivity.
Defined.

Lemma skip_spaces_stop rest acc :
  starts_with (fun c => Ascii.eqb c space) rest = false ->
  skip_spaces rest acc = (acc, rest).
Proof. destruct rest as [|c rest]; simpl; [reflexivity|]. intros ->. reflexivity. Qed.

Lemma skip_spaces_repeat k rest acc :
  starts_with (fun c => Ascii.eqb c space) rest = false ->
  skip_spaces (repeat space (S k) ++ rest) acc =
  ((acc + Z.of_nat (S k)) mod SIZE_MAX1, rest).
Proof.
  intros Hrest. revert acc. induction k as [|k IH]; intros acc.
  - simpl. rewrite skip_spaces_stop by exact Hrest. reflexivity.
  - change (repeat space (S (S k)) ++ rest) with (space :: (repeat space (S k) ++ rest)).
    cbn [skip_spaces]. change (Ascii.eqb space space) with true. cbn iota.
    rewrite IH. f_equal. rewrite Zplus_mod_idemp_l. f_equal. lia.
Qed.

Lemma skip_spaces_repeat_rest k rest acc :
  starts_with (fun c => Ascii.eqb c space) rest = false ->
  snd (skip_spaces (repeat space k ++ rest) acc) = rest.
Proof.
  intros Hrest. destruct k as [|k].
  - simpl. rewrite skip_spaces_stop by exact Hrest. reflexivity.
  - rewrite skip_spaces_repeat by exact Hrest. reflexivity.
Qed.

(** A line that starts with an odd number of blanks and then has content
    is rejected with the lexer error, whatever the indent before it. *)
Theorem odd_indent_is_rejected fuel k rest current stack tokens :
  current_is Is_Newline tokens = true ->
  Nat.odd k = true ->
  starts_with (fun c => Ascii.eqb c space || Ascii.eqb c hash || Ascii.eqb c nl) rest
  = false ->
  NextToken fuel (mkLexer (repeat space k ++ rest) current stack tokens)
  = LexerError "indent size must be even".
Proof.
  intros Hnl Hodd Hrest.
  assert (empty tokens = false) as Hemp by (destruct tokens; [discriminate | reflexivity]).
  destruct k as [|k]; [discriminate|].
  assert (starts_with (fun c => Ascii.eqb c space) rest = false
          /\ peek_is rest hash = false /\ peek_is rest nl = false) as (Hsp & Hh & Hn).
  { destruct rest as [|c rest]; [auto|]. unfold peek_is. simpl in *.
    apply orb_false_iff in Hrest as [Hrest Hc3].
    apply orb_false_iff in Hrest as [Hc1 Hc2]. auto. }
  unfold NextToken, MoveToNextToken.
  cbn [tokens_ input_ indent_sizes_ current_indent_size_ MoveToNextToken_loop].
  rewrite skip_spaces_repeat by exact Hsp. rewrite Hh, Hn, Hemp, Hnl.
  cbn [negb andb orb].
  assert (((0 + Z.of_nat (S k)) mod SIZE_MAX1) mod 2 = 1) as ->.
  { rewrite Z.mod_mod_divide by (exists (2 ^ 63); reflexivity).
    rewrite Z.add_0_l. apply Nat.odd_spec in Hodd as [m Hm]. rewrite Hm.
    replace (Z.of_nat (2 * m + 1)) with (1 + Z.of_nat m * 2) by lia.
    rewrite Z.mod_add by lia. reflexivity. }
  reflexivity.
Qed.

Lemma odd_indent_is_rejected_witness :
  current_is Is_Newline [token_type.Id "a"; token_type.Newline] = true /\
  Nat.odd 3 = true /\
  NextToken 0 (mkLexer (repeat space 3 ++ src "b") 0 [0]
                       [token_type.Id "a"; token_type.Newline])
  = LexerError "indent size must be even".
Proof.
  split; [reflexivity|]. split; [reflexivity|].
  apply (odd_indent_is_rejected 0 3 (src "b") 0 [0]
           [token_type.Id "a"; token_type.Newline]); reflexivity.
Defined.

Lemma MoveToNextToken_loop_fuel f1 f2 skip_blank input :
  (length input < f1)%nat -> (length input < f2)%nat ->
  MoveToNextToken_loop f1 skip_blank input = MoveToNextToken_loop f2 skip_blank input.
Proof.
  revert f2 input. induction f1 as [|f1 IH]; intros f2 input H1 H2; [lia|].
  destruct f2 as [|f2]; [lia|]. simpl.
  pose proof (skip_spaces_length input 0) as Hs.
  destruct (skip_spaces input 0) as [space_count in1]; simpl in Hs.
  set (in2 := if peek_is in1 hash then skip_comment in1 else in1).
  assert (length in2 <= length in1)%nat as Hl2.
  { subst in2. destruct (peek_is in1 hash); [apply skip_comment_length | lia]. }
  destruct (peek_is in2 nl) eqn:Hnl; simpl; [|reflexivity].
  destruct skip_blank; [|reflexivity].
  apply peek_is_cons in Hnl as [rest Hrest]. rewrite Hrest in *. simpl in *.
  apply IH; lia.
Qed.

Lemma skip_comment_to_nl body input :
  ~ In nl body -> skip_comment (body ++ nl :: input) = nl :: input.
Proof.
  induction body as [|c body IH]; intros Hin; simpl.
  - reflexivity.
  - destruct (Ascii.eqb c nl) eqn:Hc.
    + apply Ascii.eqb_eq in Hc. exfalso. apply Hin. left. exact Hc.
    + apply IH. intros H. apply Hin. right. exact H.
Qed.

(** Blank lines and comment-only lines leave no trace: at the start of a
    line, or before the first token, the lexer answers the same with such
    a line put in front of its input as without it. *)
Theorem blank_lines_are_skipped fuel lx line :
  empty (tokens_ lx) || current_is Is_Newline (tokens_ lx) = true ->
  blank_line line ->
  NextToken fuel (with_input lx (line ++ nl :: input_ lx)) = NextToken fuel lx.
Proof.
  intros Hstart (k & comment & -> & Hcomment).
  assert (MoveToNextToken (with_input lx ((repeat space k ++ comment) ++ nl :: input_ lx))
          = MoveToNextToken lx) as Hmove.
  { unfold MoveToNextToken, with_input.
    cbn [tokens_ input_ indent_sizes_ current_indent_size_].
    set (is_new_line := negb (empty (tokens_ lx)) && current_is Is_Newline (tokens_ lx)).
    assert (empty (tokens_ lx) || is_new_line = true) as ->.
    { subst is_new_line. destruct (empty (tokens_ lx)); simpl in *; auto. }
    assert (MoveToNextToken_loop
              (S (length ((repeat space k ++ comment) ++ nl :: input_ lx))) true
              ((repeat space k ++ comment) ++ nl :: input_ lx)
            = MoveToNextToken_loop (S (length (input_ lx))) true (input_ lx)) as ->;
      [|reflexivity].
    remember (MoveToNextToken_loop (S (length (input_ lx))) true (input_ lx))
      as target eqn:Htarget.
    cbn [MoveToNextToken_loop]. rewrite <- app_assoc.
    assert (starts_with (fun c => Ascii.eqb c space) (comment ++ nl :: input_ lx) = false)
      as Hsp.
    { destruct Hcomment as [-> | (body & -> & _)]; reflexivity. }
    pose proof (skip_spaces_repeat_rest k _ 0 Hsp) as Hrest.
    destruct (skip_spaces _ 0) as [space_count in1]. simpl in Hrest. subst in1.
    assert ((if peek_is (comment ++ nl :: input_ lx) hash
             then skip_comment (comment ++ nl :: input_ lx)
             else comment ++ nl :: input_ lx) = nl :: input_ lx) as ->.
    { destruct Hcomment as [-> | (body & -> & Hbody)]; [reflexivity|].
      change (peek_is ((hash :: body) ++ nl :: input_ lx) hash) with true. cbn iota.
      change ((hash :: body) ++ nl :: input_ lx) with (hash :: (body ++ nl :: input_ lx)).
      cbn [skip_comment]. change (Ascii.eqb hash nl) with false. cbn iota.
      apply skip_comment_to_nl, Hbody. }
    change (peek_is (nl :: input_ lx) nl && true) with true. cbn iota.
    cbn [ignore tl]. subst target.
    apply MoveToNextToken_loop_fuel; rewrite ?length_app; simpl; lia. }
  unfold NextToken. rewrite Hmove. reflexivity.
Qed.

Lemma blank_lines_are_skipped_witness :
  empty (tokens_ (mkLexer (src "x") 0 [0] [])) ||
    current_is Is_Newline (tokens_ (mkLexer (src "x") 0 [0] [])) = true /\
  blank_line (src "   # note") /\
  NextToken 0 (with_input (mkLexer (src "x") 0 [0] [])
                 (src "   # note" ++ nl :: input_ (mkLexer (src "x") 0 [0] [])))
  = NextToken 0 (mkLexer (src "x") 0 [0] []).
Proof.
  assert (blank_line (src "   # note")) as Hblank.
  { exists 3%nat, (src "# note"). split; [reflexivity|]. right.
    exists (src " note"). split; [reflexivity|].
    simpl. intros [H|[H|[H|[H|[H|[]]]]]]; discriminate. }
  split; [reflexivity|]. split; [exact Hblank|].
  apply (blank_lines_are_skipped 0 (mkLexer (src "x") 0 [0] []) (src "   # note"));
    [reflexivity | exact Hblank].
Defined.

Lemma ParseString_loop_reads_back quote rest s :
  quote = squote \/ quote = dquote ->
  ~ In backslash s ->
  forall fuel str,
    (length s < fuel)%nat ->
    ParseString_loop fuel quote (escape s ++ quote :: rest) str =
    Ok (token_type.String (string_of_list_ascii (str ++ s)), rest).
Proof.
  intros Hq. induction s as [|c s IH]; intros Hin fuel str Hfuel.
  - destruct fuel as [|fuel]; [simpl in Hfuel; lia|].
    simpl. rewrite Ascii.eqb_refl, app_nil_r. reflexivity.
  - destruct fuel as [|fuel]; [simpl in Hfuel; lia|].
    assert (~ In backslash s) as Hin' by (intros H; apply Hin; right; exact H).
    assert (c <> backslash) as Hc by (intros ->; apply Hin; left; reflexivity).
    assert (Ascii.eqb backslash quote = false) as Hbq
      by (destruct Hq as [-> | ->]; reflexivity).
    simpl in Hfuel.
    specialize (IH Hin' fuel (str ++ [c]) ltac:(lia)).
    rewrite <- app_assoc in IH. simpl in IH.
    unfold escape in *. cbn [flat_map]. unfold escape_char at 1.
    destruct (Ascii.eqb c squote || Ascii.eqb c dquote) eqn:Hquote.
    + cbn [app ParseString_loop get hd_error tl to_char].
      rewrite Hbq, Ascii.eqb_refl, Hquote. exact IH.
    + destruct (Ascii.eqb c nl) eqn:Hnl.
      * apply Ascii.eqb_eq in Hnl. subst c.
        cbn [app ParseString_loop get hd_error tl to_char].
        rewrite Hbq, Ascii.eqb_refl. exact IH.
      * destruct (Ascii.eqb c tab) eqn:Htab.
        -- apply Ascii.eqb_eq in Htab. subst c.
           cbn [app ParseString_loop get hd_error tl to_char].
           rewrite Hbq, Ascii.eqb_refl. exact IH.
        -- cbn [app ParseString_loop get hd_error tl to_char].
           apply Ascii.eqb_neq in Hc. rewrite Hc.
           assert (Ascii.eqb c quote = false) as ->.
           { apply orb_false_iff in Hquote as [H1 H2].
             destruct Hq as [-> | ->]; assumption. }
           exact IH.
Qed.

(** [ParseString] reads back what [escape] wrote: a string without
    backslashes, put between two equal quotes with its quotes, line feeds
    and tabs escaped, comes out as it went in, given a unit of fuel per
    character and one for the closing quote. *)
Theorem ParseString_reads_back fuel quote s rest :
  quote = squote \/ quote = dquote ->
  ~ In backslash s ->
  (length s < fuel)%nat ->
  ParseString fuel (quote :: escape s ++ quote :: rest) =
  Ok (token_type.String (string_of_list_ascii s), rest).
Proof.
  intros Hq Hin Hfuel. unfold ParseString, get. simpl.
  apply (ParseString_loop_reads_back quote rest s Hq Hin fuel [] Hfuel).
Qed.

Lemma ParseString_reads_back_witness :
  (dquote = squote \/ dquote = dquote) /\
  (length (src ("it's" +:+ LF)) < 6)%nat /\
  ParseString 6 (dquote :: escape (src ("it's" +:+ LF)) ++ dquote :: src " + 1") =
  Ok (token_type.String ("it's" +:+ LF), src " + 1").
Proof.
  split; [right; reflexivity|]. split; [simpl; lia|].
  apply (ParseString_reads_back 6 dquote (src ("it's" +:+ LF)) (src " + 1")).
  - right. reflexivity.
  - simpl. intros [H|[H|[H|[H|[H|[]]]]]]; discriminate.
  - simpl. lia.
Defined.

Lemma read_identifier_spec input :
  let '(chars, rest) := read_identifier input in
  input = chars ++ rest /\
  forallb identifier_char chars = true /\
  starts_with identifier_char rest = false.
Proof.
  induction input as [|c input IH]; simpl; [auto|].
  fold (identifier_char c).
  destruct (identifier_char c) eqn:Hc.
  - destruct (read_identifier input) as [chars rest].
    destruct IH as (-> & Hall & Hrest). simpl. rewrite Hc. auto.
  - simpl. rewrite Hc. auto.
Qed.

(** [ParseIdentifier] takes the longest run of letters, digits and
    underscores at the front of the input, no more and no less, and makes
    it a keyword token if it is one of the twelve keywords and an [Id]
    otherwise. *)
Theorem ParseIdentifier_longest_match input t rest :
  ParseIdentifier input = (t, rest) ->
  exists chars,
    input = chars ++ rest /\
    forallb identifier_char chars = true /\
    starts_with identifier_char rest = false /\
    t = match keywords (string_of_list_ascii chars) with
        | Some keyword => keyword
        | Datatypes.None => token_type.Id (string_of_list_ascii chars)
        end /\
    (forall value, t = token_type.Id value -> keywords value = Datatypes.None).
Proof.
  unfold ParseIdentifier. pose proof (read_identifier_spec input) as Hspec.
  destruct (read_identifier input) as [chars rest'].
  destruct Hspec as (-> & Hall & Hrest).
  destruct (keywords (string_of_list_ascii chars)) as [keyword|] eqn:Hkw;
    intros [= <- <-]; exists chars;
    (split; [reflexivity|]); (split; [exact Hall|]); (split; [exact Hrest|]);
    rewrite Hkw; (split; [reflexivity|]).
  - intros value ->. revert Hkw. unfold keywords.
    repeat (match goal with
            | |- context [String.eqb ?a ?b] => destruct (String.eqb a b)
            end; [discriminate|]).
    discriminate.
  - intros value [= <-]. exact Hkw.
Qed.

Lemma ParseIdentifier_longest_match_witness :
  ParseIdentifier (src "print_x1 = 2") = (token_type.Id "print_x1", src " = 2") /\
  exists chars,
    src "print_x1 = 2" = chars ++ src " = 2" /\
    forallb identifier_char chars = true /\
    starts_with identifier_char (src " = 2") = false /\
    token_type.Id "print_x1"
    = match keywords (string_of_list_ascii chars) with
      | Some keyword => keyword
      | Datatypes.None => token_type.Id (string_of_list_ascii chars)
      end /\
    (forall value, token_type.Id "print_x1" = token_type.Id value ->
                   keywords value = Datatypes.None).
Proof.
  split; [reflexivity|].
  apply (ParseIdentifier_longest_match (src "print_x1 = 2")). reflexivity.
Defined.

Lemma digit_char_spec d :
  0 <= d < 10 ->
  isdigit (digit_char d) = true /\ Z.of_N (N_of_ascii (digit_char d)) - 48 = d.
Proof.
  intros Hd.
  assert (d = 0 \/ d = 1 \/ d = 2 \/ d = 3 \/ d = 4 \/ d = 5 \/ d = 6 \/ d = 7
          \/ d = 8 \/ d = 9) as H by lia.
  repeat (destruct H as [-> | H]; [split; reflexivity|]). subst. split; reflexivity.
Qed.

Lemma read_digits_decimal_go fuel n acc rest :
  0 <= n -> (Z.to_nat n < fuel)%nat ->
  read_digits (decimal_go fuel n acc ++ rest) 0 = read_digits (acc ++ rest) n.
Proof.
  revert n acc. induction fuel as [|fuel IH]; intros n acc Hn Hfuel; [lia|].
  cbn [decimal_go]. destruct (n <? 10) eqn:Hlt.
  - apply Z.ltb_lt in Hlt. destruct (digit_char_spec n ltac:(lia)) as [Hd Hv].
    cbn [app read_digits]. rewrite Hd, Hv. f_equal.
  - apply Z.ltb_ge in Hlt.
    assert (0 <= n / 10 < n) as Hdiv.
    { split; [apply Z.div_pos; lia | apply Z.div_lt; lia]. }
    rewrite IH by lia.
    destruct (digit_char_spec (n mod 10) ltac:(apply Z.mod_pos_bound; lia)) as [Hd Hv].
    cbn [app read_digits]. rewrite Hd, Hv. f_equal.
    rewrite (Z.div_mod n 10) at 3 by lia. reflexivity.
Qed.

(** [ParseDigit] reads decimal notation: the digits of a number up to
    [INT_MAX], followed by something that is not a digit, give back that
    number and leave the rest; the digits of a larger number raise the
    [std::out_of_range] of [std::stoi], which is not a lexer error. *)
Theorem ParseDigit_reads_decimal n rest :
  0 <= n ->
  starts_with isdigit rest = false ->
  ParseDigit (decimal n ++ rest) =
  if n <=? INT_MAX then Ok (token_type.Number n, rest) else StdError "stoi".
Proof.
  intros Hn Hrest. unfold ParseDigit, decimal.
  rewrite read_digits_decimal_go by lia. cbn [app].
  assert (read_digits rest n = (n, rest)) as ->.
  { destruct rest as [|c rest]; [reflexivity|]. simpl in *. rewrite Hrest. reflexivity. }
  rewrite Z.gtb_ltb. destruct (n <=? INT_MAX) eqn:Hle.
  - apply Z.leb_le in Hle. apply Z.ltb_ge in Hle. rewrite Hle. reflexivity.
  - apply Z.leb_gt in Hle. apply Z.ltb_lt in Hle. rewrite Hle. reflexivity.
Qed.

Lemma ParseDigit_reads_decimal_witness :
  0 <= 2147483648 /\
  starts_with isdigit (src " + 1") = false /\
  ParseDigit (decimal 2026 ++ src " + 1") = Ok (token_type.Number 2026, src " + 1") /\
  ParseDigit (decimal 2147483648 ++ src " + 1") = StdError "stoi".
Proof.
  split; [lia|]. split; [reflexivity|]. split.
  - apply (ParseDigit_reads_decimal 2026 (src " + 1")); [lia | reflexivity].
  - reflexivity.
Defined.

Lemma each_follows_snoc p q prev tokens t :
  each_follows p q prev (tokens ++ [t]) =
  each_follows p q prev tokens
  && (negb (p t)
      || q (match CurrentToken tokens with Some x => Some x | Datatypes.None => prev end)).
Proof.
  revert prev. induction tokens as [|t1 rest IH]; intros prev.
  - simpl. rewrite andb_true_r. reflexivity.
  - cbn [app each_follows]. rewrite IH, CurrentToken_cons.
    rewrite <- andb_assoc. destruct (CurrentToken rest); reflexivity.
Qed.

(** An [Eof] is only emitted where a line is over: as the very first
    token, or right after a [Newline], a [Dedent] or an [Eof]; after a
    token of content the lexer emits a [Newline] first. *)
Theorem Eof_only_after_line_end fuel n input lx :
  Lexer_run fuel n input = Ok lx ->
  each_follows Is_Eof line_is_over Datatypes.None (tokens_ lx) = true.
Proof.
  assert (forall lx0 lx1,
             NextToken fuel lx0 = Ok lx1 ->
             each_follows Is_Eof line_is_over Datatypes.None (tokens_ lx0) = true ->
             each_follows Is_Eof line_is_over Datatypes.None (tokens_ lx1) = true)
    as Hstep.
  { intros lx0 lx1 H Hgood. apply NextToken_cases in H as (lx2 & Hmove & Hcase).
    apply MoveToNextToken_indent in Hmove as (Htok & _ & _).
    destruct Hcase as [(_ & t & stack & Ht & ->) | (_ & t & rest & -> & Hkind)];
      simpl; rewrite each_follows_snoc, Htok, Hgood; simpl.
    - destruct t; try discriminate; reflexivity.
    - destruct Hkind as [Hc | [-> | (-> & _)]].
      + apply is_layout_false in Hc as (_ & _ & _ & ->). reflexivity.
      + reflexivity.
      + rewrite Htok. unfold ParseEof, line_is_over, current_is.
        destruct (tokens_ lx0) as [|t0 ts] eqn:Hts; [reflexivity|].
        rewrite <- Hts. simpl empty.
        assert (empty (tokens_ lx0) = false) as -> by (rewrite Hts; reflexivity).
        destruct (CurrentToken (tokens_ lx0)) as [c|] eqn:Hcur; simpl.
        * destruct (Is_Newline c) eqn:E1; simpl; [reflexivity|].
          destruct (Is_Eof c) eqn:E2; simpl; [rewrite orb_true_r; reflexivity|].
          destruct (Is_Dedent c) eqn:E3; reflexivity.
        * reflexivity. }
  revert lx. induction n as [|n IH]; intros lx; simpl.
  - unfold Lexer_new. intros H. eapply Hstep; [exact H | reflexivity].
  - destruct (Lexer_run fuel n input) as [lx0| | | |]; simpl; try discriminate.
    intros H. eapply Hstep; [exact H | apply IH; reflexivity].
Qed.

Lemma Eof_only_after_line_end_witness :
  exists lx,
    Lexer_run 0 4 (src "x") = Ok lx /\
    each_follows Is_Eof line_is_over Datatypes.None (tokens_ lx) = true.
Proof.
  eexists. split; [vm_compute; reflexivity|].
  apply (Eof_only_after_line_end 0 4 (src "x")). vm_compute. reflexivity.
Defined.

Lemma ParseString_loop_closed quote body :
  forall fuel str,
    closes quote body = true -> (length body < fuel)%nat ->
    exists t rest, ParseString_loop fuel quote body str = Ok (t, rest).
Proof.
  induction body as [body IH] using (induction_ltof1 _ (@length ascii)).
  unfold ltof in IH. intros fuel str Hclose Hfuel.
  destruct fuel as [|fuel]; [lia|].
  destruct body as [|c rest]; [discriminate|].
  cbn [ParseString_loop get hd_error tl to_char]. cbn [closes] in Hclose.
  destruct (Ascii.eqb c quote); [eauto|].
  destruct (Ascii.eqb c backslash).
  - destruct rest as [|d rest']; [discriminate|].
    cbn [hd_error tl to_char]. simpl in Hfuel.
    repeat (match goal with |- context [if ?b then _ else _] => destruct b end);
      apply IH; simpl; auto; lia.
  - simpl in Hfuel. apply IH; simpl; auto; lia.
Qed.

Lemma ParseString_loop_open quote body :
  quote <> EOF_char ->
  forall fuel str,
    closes quote body = false ->
    ParseString_loop fuel quote body str = OutOfFuel.
Proof.
  intros Hq.
  induction body as [body IH] using (induction_ltof1 _ (@length ascii)).
  unfold ltof in IH. intros fuel str Hclose.
  destruct fuel as [|fuel]; [reflexivity|].
  destruct body as [|c rest].
  - cbn [ParseString_loop get hd_error tl to_char].
    assert (Ascii.eqb EOF_char quote = false) as ->
      by (apply Ascii.eqb_neq; congruence).
    change (Ascii.eqb EOF_char backslash) with false. cbn iota.
    apply ParseString_loop_unterminated; [exact Hq | simpl; auto].
  - cbn [ParseString_loop get hd_error tl to_char]. cbn [closes] in Hclose.
    destruct (Ascii.eqb c quote); [discriminate|].
    destruct (Ascii.eqb c backslash).
    + destruct rest as [|d rest'].
      * cbn [hd_error tl to_char].
        repeat (match goal with |- context [if ?b then _ else _] => destruct b end);
          apply ParseString_loop_unterminated; simpl; auto.
      * cbn [hd_error tl to_char].
        repeat (match goal with |- context [if ?b then _ else _] => destruct b end);
          apply IH; simpl; auto.
    + apply IH; simpl; auto.
Qed.

(** [ParseString] returns exactly when the literal is closed: if its body
    comes to an unescaped quote, a unit of fuel per character is enough
    for it to return a token; if it does not, no amount of fuel is. *)
Theorem ParseString_returns_iff_closed fuel quote body :
  quote = squote \/ quote = dquote ->
  (closes quote body = true -> (length body < fuel)%nat ->
   exists t rest, ParseString fuel (quote :: body) = Ok (t, rest)) /\
  (closes quote body = false -> ParseString fuel (quote :: body) = OutOfFuel).
Proof.
  intros Hq. unfold ParseString, get. simpl. split.
  - intros Hclose Hfuel. apply ParseString_loop_closed; assumption.
  - intros Hclose. apply ParseString_loop_open; [|exact Hclose].
    destruct Hq as [-> | ->]; discriminate.
Qed.

Lemma ParseString_returns_iff_closed_witness :
  (squote = squote \/ squote = dquote) /\
  closes squote (src "a\'b' c") = true /\
  (length (src "a\'b' c") < 8)%nat /\
  (exists t rest, ParseString 8 (squote :: src "a\'b' c") = Ok (t, rest)) /\
  closes squote (src "a\'b") = false /\
  ParseString 8 (squote :: src "a\'b") = OutOfFuel.
Proof.
  split; [left; reflexivity|]. split; [reflexivity|]. split; [simpl; lia|].
  split.
  - apply (proj1 (ParseString_returns_iff_closed 8 squote (src "a\'b' c")
                    (or_introl eq_refl))); [reflexivity | simpl; lia].
  - split; [reflexivity|].
    apply (proj2 (ParseString_returns_iff_closed 8 squote (src "a\'b")
                    (or_introl eq_refl))). reflexivity.
Defined.

Lemma ParseString_loop_stable fuel extra quote input str r :
  ParseString_loop fuel quote input str = r -> r <> OutOfFuel ->
  ParseString_loop (fuel + extra) quote input str = r.
Proof.
  revert input str. induction fuel as [|fuel IH]; intros input str; simpl.
  - congruence.
  - repeat (match goal with |- context [if ?b then _ else _] => destruct b end);
      auto.
Qed.

Lemma NextToken_stable fuel extra lx r :
  NextToken fuel lx = r -> r <> OutOfFuel -> NextToken (fuel + extra) lx = r.
Proof.
  unfold NextToken. destruct (MoveToNextToken lx) as [lx1| | | |]; simpl; auto.
  destruct (indent_sizes_ lx1) as [|top below]; auto.
  repeat (match goal with
          | |- context [if ?b then _ else _] => destruct b; auto
          end).
  unfold ParseString. destruct (get (input_ lx1)) as [q in1].
  intros Hr Hne.
  destruct (ParseString_loop fuel (to_char q) in1 []) as [[t rest]| | | |] eqn:Hloop;
    try (erewrite ParseString_loop_stable; [exact Hr | exact Hloop | discriminate]).
  simpl in Hr. congruence.
Qed.

(** The lexer's fuel is only fuel: a run that has come to an end with
    some amount of fuel (it returned or raised) comes to the same end with
    any larger amount. *)
Theorem Lexer_run_result_is_stable fuel extra n input r :
  Lexer_run fuel n input = r -> r <> OutOfFuel ->
  Lexer_run (fuel + extra) n input = r.
Proof.
  revert r. induction n as [|n IH]; intros r; simpl.
  - apply NextToken_stable.
  - destruct (Lexer_run fuel n input) as [lx| | | |] eqn:Hrun.
    + rewrite (IH (Ok lx) eq_refl) by discriminate. simpl. apply NextToken_stable.
    + rewrite (IH _ eq_refl) by discriminate. auto.
    + rewrite (IH _ eq_refl) by discriminate. auto.
    + rewrite (IH _ eq_refl) by discriminate. auto.
    + simpl. congruence.
Qed.

Lemma Lexer_run_result_is_stable_witness :
  Lexer_run 3 0 (src "'ab'") = Ok (mkLexer [] 0 [0] [token_type.String "ab"]) /\
  Lexer_run (3 + 50) 0 (src "'ab'") = Ok (mkLexer [] 0 [0] [token_type.String "ab"]).
Proof.
  split; [reflexivity|].
  apply (Lexer_run_result_is_stable 3 50 0 (src "'ab'")); [reflexivity | discriminate].
Defined.

End LexerMore.

(* ===================================================================== *)
(** * The runtime and the evaluator: further properties *)
(* ===================================================================== *)

Section RuntimeMore.
Import runtime ast.

Lemma find_app {A} (f : A -> bool) (l1 l2 : list A) :
  List.find f (l1 ++ l2) =
  match List.find f l1 with Some x => Some x | None => List.find f l2 end.
Proof.
  induction l1 as [|x l1 IH]; simpl; [reflexivity|].
  destruct (f x); [reflexivity | exact IH].
Qed.

(** Method resolution order: [GetMethod] returns the first method of
    that name met when the class's own methods are listed before its
    parent's, and so on up the chain; what it returns bears the name
    asked for. *)
Theorem GetMethod_resolution_order c name :
  GetMethod c name
  = List.find (fun m => String.eqb (method_name m) name) (ancestry c) /\
  (forall m, GetMethod c name = Some m -> method_name m = name /\ In m (ancestry c)).
Proof.
  assert (forall c, GetMethod c name
                    = List.find (fun m => String.eqb (method_name m) name) (ancestry c))
    as Heq.
  { fix IH 1. intros [n methods parent]. cbn [GetMethod ancestry].
    rewrite find_app.
    destruct (List.find _ methods); [reflexivity|].
    destruct parent as [p|]; [apply IH | reflexivity]. }
  split; [apply Heq|].
  intros m Hm. rewrite Heq in Hm. apply find_some in Hm as [Hin Hname].
  apply String.eqb_eq in Hname. auto.
Qed.

Lemma bind_params_spec params :
  forall actual_args (closure : Closure),
    length params = length actual_args ->
    NoDup params ->
    exists closure',
      bind_params params actual_args closure = Some closure' /\
      (forall (i : nat) p a,
          params !! i = Some p -> actual_args !! i = Some a -> closure' !! p = Some a) /\
      (forall x, x ∉ params -> closure' !! x = closure !! x).
Proof.
  induction params as [|p params IH]; intros [|a actual_args] closure Hlen Hnodup;
    try discriminate.
  - exists closure. split; [reflexivity|]. split; [intros i p a H; discriminate | auto].
  - apply NoDup_cons in Hnodup as [Hp Hnodup]. simpl in Hlen.
    destruct (IH actual_args (<[p := a]> closure) ltac:(lia) Hnodup)
      as (closure' & Hbind & Hformals & Hothers).
    exists closure'. split; [exact Hbind|]. split.
    + intros [|i] q b Hq Hb; simpl in *.
      * injection Hq as <-. injection Hb as <-.
        rewrite (Hothers p Hp). apply lookup_insert_eq.
      * eapply Hformals; eauto.
    + intros x Hx. apply not_elem_of_cons in Hx as [Hne Hx].
      rewrite (Hothers x Hx). apply lookup_insert_ne. congruence.
Qed.

(** A call runs the method's body in an environment of its own that holds
    the actual arguments under the names of the formal parameters, the
    instance under [self], and nothing else; the caller's environment is
    put back when the body is done. *)
Theorem Call_binds_formals exec self cls method actual_args st method_ptr :
  GetMethod cls method = Some method_ptr ->
  length (formal_params method_ptr) = length actual_args ->
  NoDup (formal_params method_ptr) ->
  exists closure : Closure,
    Call exec self cls method actual_args st
    = leave_frame (closure_ st) (exec (body method_ptr) (set_closure closure st)) /\
    (forall (i : nat) p a,
        formal_params method_ptr !! i = Some p -> actual_args !! i = Some a ->
        closure !! p = Some a) /\
    ("self" ∉ formal_params method_ptr ->
     closure !! "self" = Some (HInstance self cls)) /\
    (forall x, x <> "self" -> x ∉ formal_params method_ptr -> closure !! x = None).
Proof.
  intros Hget Hlen Hnodup.
  destruct (bind_params_spec (formal_params method_ptr) actual_args
              (<["self" := HInstance self cls]> ∅) Hlen Hnodup)
    as (closure & Hbind & Hformals & Hothers).
  exists closure. split; [|split; [exact Hformals|split]].
  - unfold Call, HasMethod. rewrite Hget, Hlen, Nat.eqb_refl. simpl.
    rewrite Hbind. reflexivity.
  - intros Hself. rewrite (Hothers _ Hself). apply lookup_insert_eq.
  - intros x Hne Hx. rewrite (Hothers x Hx).
    rewrite lookup_insert_ne by congruence. apply lookup_empty.
Qed.

Lemma Call_binds_formals_witness :
  GetMethod sample.Person "set_name" = Some (mkMethod "set_name" ["name"]
    (MethodBody (Compound [FieldAssignment ["self"] "name" (VariableValue ["name"])]))) /\
  exists closure : Closure,
    Call (Execute LeftToRight 5) 1%nat sample.Person "set_name" [HString "Ivan"]
         sample.empty_state
    = leave_frame (closure_ sample.empty_state)
        (Execute LeftToRight 5
           (MethodBody (Compound [FieldAssignment ["self"] "name" (VariableValue ["name"])]))
           (set_closure closure sample.empty_state)) /\
    closure !! "name" = Some (HString "Ivan") /\
    closure !! "self" = Some (HInstance 1%nat sample.Person).
Proof.
  split; [reflexivity|].
  destruct (Call_binds_formals (Execute LeftToRight 5) 1%nat sample.Person "set_name"
              [HString "Ivan"] sample.empty_state
              (mkMethod "set_name" ["name"]
                 (MethodBody (Compound [FieldAssignment ["self"] "name"
                                          (VariableValue ["name"])]))))
    as (closure & Hcall & Hformals & Hself & _).
  - reflexivity.
  - reflexivity.
  - apply NoDup_cons. split; [apply not_elem_of_nil | apply NoDup_nil; exact I].
  - exists closure. split; [exact Hcall|]. split.
    + apply (Hformals 0%nat "name" (HString "Ivan")); reflexivity.
    + apply Hself. simpl. intros H. apply list_elem_of_singleton in H. discriminate.
Defined.

Lemma string_compare_refl s : String.compare s s = Eq.
Proof.
  pose proof (String.compare_antisym s s) as H.
  destruct (String.compare s s); [reflexivity | discriminate | discriminate].
Qed.

Lemma string_trichotomy l r :
  (String.ltb l r, String.eqb l r, String.ltb r l)
  = match String.compare l r with
    | Lt => (true, false, false)
    | Eq => (false, true, false)
    | Gt => (false, false, true)
    end.
Proof.
  pose proof (String.compare_antisym r l) as Hanti.
  unfold String.ltb. rewrite Hanti.
  destruct (String.compare l r) eqn:Hc; simpl.
  - apply String.compare_eq_iff in Hc. subst. rewrite String.eqb_refl. reflexivity.
  - assert (String.eqb l r = false) as ->; [|reflexivity].
    apply String.eqb_neq. intros ->. rewrite string_compare_refl in Hc. discriminate.
  - assert (String.eqb l r = false) as ->; [|reflexivity].
    apply String.eqb_neq. intros ->. rewrite string_compare_refl in Hc. discriminate.
Qed.

Lemma Z_trichotomy l r :
  ((l <? r), (l =? r), (r <? l))
  = match l ?= r with
    | Lt => (true, false, false)
    | Eq => (false, true, false)
    | Gt => (false, false, true)
    end.
Proof.
  destruct (Z.compare_spec l r) as [H|H|H].
  - subst. rewrite Z.ltb_irrefl, Z.eqb_refl. reflexivity.
  - replace (l <? r) with true by (symmetry; apply Z.ltb_lt; lia).
    replace (l =? r) with false by (symmetry; apply Z.eqb_neq; lia).
    replace (r <? l) with false by (symmetry; apply Z.ltb_ge; lia). reflexivity.
  - replace (l <? r) with false by (symmetry; apply Z.ltb_ge; lia).
    replace (l =? r) with false by (symmetry; apply Z.eqb_neq; lia).
    replace (r <? l) with true by (symmetry; apply Z.ltb_lt; lia). reflexivity.
Qed.

(** [Equal] does not care about the order of its operands unless one of
    them is an instance, and for two like primitives exactly one of
    [lhs < rhs], [lhs == rhs] and [rhs < lhs] holds. *)
Theorem Equal_Less_on_primitives exec lhs rhs st :
  TryAs_ClassInstance lhs = None -> TryAs_ClassInstance rhs = None ->
  Equal exec lhs rhs st = Equal exec rhs lhs st /\
  (like_kinded lhs rhs = true ->
   exists lt eq gt,
     Less exec lhs rhs st = Normal lt st /\
     Equal exec lhs rhs st = Normal eq st /\
     Less exec rhs lhs st = Normal gt st /\
     ((lt, eq, gt) = (true, false, false) \/
      (lt, eq, gt) = (false, true, false) \/
      (lt, eq, gt) = (false, false, true))).
Proof.
  intros Hl Hr. split.
  - destruct lhs, rhs; try discriminate; try reflexivity; unfold Equal; simpl.
    + rewrite Z.eqb_sym. reflexivity.
    + rewrite String.eqb_sym. reflexivity.
    + destruct value, value0; reflexivity.
  - destruct lhs, rhs; try discriminate; intros _; unfold Equal, Less; simpl;
      do 3 eexists; (split; [reflexivity|]); (split; [reflexivity|]);
      (split; [reflexivity|]).
    + rewrite Z_trichotomy. destruct (value ?= value0); auto.
    + rewrite string_trichotomy. destruct (String.compare value value0); auto.
    + destruct value, value0; simpl; auto.
Qed.

Lemma Equal_Less_on_primitives_witness :
  TryAs_ClassInstance (HString "ab") = None /\
  TryAs_ClassInstance (HString "b") = None /\
  like_kinded (HString "ab") (HString "b") = true /\
  Equal (Execute LeftToRight 3) (HString "ab") (HString "b") sample.empty_state
  = Equal (Execute LeftToRight 3) (HString "b") (HString "ab") sample.empty_state /\
  exists lt eq gt,
    Less (Execute LeftToRight 3) (HString "ab") (HString "b") sample.empty_state
    = Normal lt sample.empty_state /\
    Equal (Execute LeftToRight 3) (HString "ab") (HString "b") sample.empty_state
    = Normal eq sample.empty_state /\
    Less (Execute LeftToRight 3) (HString "b") (HString "ab") sample.empty_state
    = Normal gt sample.empty_state /\
    ((lt, eq, gt) = (true, false, false) \/
     (lt, eq, gt) = (false, true, false) \/
     (lt, eq, gt) = (false, false, true)).
Proof.
  split; [reflexivity|]. split; [reflexivity|]. split; [reflexivity|].
  destruct (Equal_Less_on_primitives (Execute LeftToRight 3) (HString "ab") (HString "b")
              sample.empty_state eq_refl eq_refl) as [Hsym Htri].
  split; [exact Hsym | exact (Htri eq_refl)].
Defined.

End RuntimeMore.

Section EvaluatorMore.
Import runtime ast.
Variable order : ArgOrder.

(** Looking a variable up never writes: [VariableValue::Execute] returns
    or raises its runtime error in the state it was given (no closure
    gains an entry through [operator[]]), and it never throws a holder. *)
Theorem VariableValue_never_writes dotted_ids closure_ptr st :
  match VariableValue_Execute dotted_ids closure_ptr st with
  | Normal _ st' | RuntimeError _ st' => st' = st
  | Thrown _ _ | OutOfFuel => False
  | Undefined => True
  end.
Proof.
  revert closure_ptr. induction dotted_ids as [|id rest IH]; intros closure_ptr;
    simpl; [exact I|].
  destruct rest as [|id' rest'].
  - destruct (deref closure_ptr st !! id); reflexivity.
  - destruct (deref closure_ptr st !! id) as [w|]; [|reflexivity].
    destruct (TryAs_ClassInstance w) as [[a c]|]; [apply IH | exact I].
Qed.

(** What [Assignment] has bound, [VariableValue] finds: after
    [var = rv] has returned [v], looking [var] up gives [v] and changes
    nothing. *)
Theorem Assignment_then_lookup fuel fuel' var rv st v st' :
  Execute order (S fuel) (Assignment var rv) st = Normal v st' ->
  Execute order (S fuel') (VariableValue [var]) st' = Normal v st'.
Proof.
  cbn [Execute]. destruct (Execute order fuel rv st) as [w st1| | | |]; simpl;
    try discriminate.
  intros [= <- <-]. unfold set_var, set_closure. simpl.
  rewrite lookup_insert_eq. reflexivity.
Qed.

Lemma VariableValue_Execute_cons id id' rest closure_ptr st :
  VariableValue_Execute (id :: id' :: rest) closure_ptr st =
  match deref closure_ptr st !! id with
  | None => RuntimeError (not_found id) st
  | Some v =>
      match TryAs_ClassInstance v with
      | Some (a, _) => VariableValue_Execute (id' :: rest) (FieldsOf a) st
      | None => Undefined
      end
  end.
Proof. reflexivity. Qed.

Lemma VariableValue_Execute_field path field closure_ptr st a cls :
  VariableValue_Execute path closure_ptr st = Normal (HInstance a cls) st ->
  VariableValue_Execute (path ++ [field]) closure_ptr st =
  match Fields a st !! field with
  | Some v => Normal v st
  | None => RuntimeError (not_found field) st
  end.
Proof.
  revert closure_ptr. induction path as [|id rest IH]; intros closure_ptr;
    [discriminate|].
  destruct rest as [|id' rest'].
  - simpl. destruct (deref closure_ptr st !! id) as [w|]; [|discriminate].
    intros [= ->]. reflexivity.
  - change ((id :: id' :: rest') ++ [field]) with (id :: id' :: (rest' ++ [field])).
    rewrite !VariableValue_Execute_cons.
    destruct (deref closure_ptr st !! id) as [w|]; [|discriminate].
    destruct (TryAs_ClassInstance w) as [[b c]|]; [|discriminate].
    apply IH.
Qed.

(** What [FieldAssignment] has stored is seen through every name of the
    instance: after [object.field = rv] has returned [v], any dotted path
    that leads to the same instance, followed by [field], gives [v]. *)
Theorem FieldAssignment_then_lookup fuel object field_name rv st v st' a cls path cls' :
  VariableValue_Execute object ThisClosure st = Normal (HInstance a cls) st ->
  Execute order (S fuel) (FieldAssignment object field_name rv) st = Normal v st' ->
  VariableValue_Execute path ThisClosure st' = Normal (HInstance a cls') st' ->
  VariableValue_Execute (path ++ [field_name]) ThisClosure st' = Normal v st'.
Proof.
  intros Hobj Hexec Hpath. cbn [Execute] in Hexec. rewrite Hobj in Hexec.
  simpl in Hexec.
  destruct (Execute order fuel rv st) as [w st2| | | |]; simpl in Hexec;
    try discriminate.
  injection Hexec as <- <-.
  rewrite (VariableValue_Execute_field path field_name ThisClosure _ a cls' Hpath).
  unfold Fields, set_field. simpl. rewrite lookup_insert_eq. simpl.
  rewrite lookup_insert_eq. reflexivity.
Qed.

(** [MethodBody] is where a return-carrier stops: it never lets a thrown
    holder out, and so neither does the call of a method whose body is a
    [MethodBody]. *)
Theorem MethodBody_stops_the_carrier fuel body st holder st' :
  Execute order fuel (MethodBody body) st <> Thrown holder st' /\
  (forall self cls method actual_args method_ptr,
      GetMethod cls method = Some method_ptr ->
      runtime.body method_ptr = MethodBody body ->
      Call (Execute order fuel) self cls method actual_args st <> Thrown holder st').
Proof.
  assert (forall st0 h s, Execute order fuel (MethodBody body) st0 <> Thrown h s) as Hbody.
  { intros st0 h s. destruct fuel as [|f]; [discriminate|]. cbn [Execute].
    destruct (Execute order f body st0); discriminate. }
  split; [apply Hbody|].
  intros self cls method actual_args method_ptr Hget Hb. unfold Call.
  destruct (negb _); [discriminate|]. rewrite Hget.
  destruct (bind_params _ _ _) as [closure|]; [|discriminate].
  rewrite Hb.
  pose proof (Hbody (set_closure closure st)) as Hno.
  destruct (Execute order fuel (MethodBody body) (set_closure closure st)) as [| h s | | |];
    simpl; try discriminate.
  exfalso. apply (Hno h s). reflexivity.
Qed.

(** The kind of value a node returns is fixed by the node: [Not] and
    [Comparison] return a [Bool], [Stringify] a [String], [NewInstance]
    the instance of its node, and [Print], [Compound], [ClassDefinition]
    and the none literal return none. *)
Theorem result_kinds fuel st v st' :
  (forall arg, Execute order fuel (Not arg) st = Normal v st' -> exists b, v = HBool b) /\
  (forall cmp lhs rhs,
      Execute order fuel (Comparison cmp lhs rhs) st = Normal v st' ->
      exists b, v = HBool b) /\
  (forall arg, Execute order fuel (Stringify arg) st = Normal v st' ->
               exists s, v = HString s) /\
  (forall self cls args,
      Execute order fuel (NewInstance self cls args) st = Normal v st' ->
      v = HInstance self cls) /\
  (forall s,
      match s with
      | Print _ | Compound _ | ClassDefinition _ | NoneLiteral => True
      | _ => False
      end ->
      Execute order fuel s st = Normal v st' -> v = HNone).
Proof.
  destruct fuel as [|fuel].
  { repeat split; discriminate. }
  repeat split.
  - intros arg. cbn [Execute].
    destruct (Execute order fuel arg st); simpl; try discriminate.
    intros [= <- _]. eauto.
  - intros cmp lhs rhs. cbn [Execute].
    destruct order.
    + destruct (Execute _ fuel lhs st) as [l st1| | | |]; simpl; try discriminate.
      destruct (Execute _ fuel rhs st1) as [r st2| | | |]; simpl; try discriminate.
      destruct cmp;
        [destruct (Equal _ l r st2) | destruct (Less _ l r st2)]; simpl;
        try discriminate; intros [= <- _]; eauto.
    + destruct (Execute _ fuel rhs st) as [r st1| | | |]; simpl; try discriminate.
      destruct (Execute _ fuel lhs st1) as [l st2| | | |]; simpl; try discriminate.
      destruct cmp;
        [destruct (Equal _ l r st2) | destruct (Less _ l r st2)]; simpl;
        try discriminate; intros [= <- _]; eauto.
  - intros arg. cbn [Execute].
    destruct (AppendByStatement _ _ _ arg st); simpl; try discriminate.
    intros [= <- _]. eauto.
  - intros self cls args. cbn [Execute].
    destruct (HasMethod cls INIT_METHOD (length args)).
    + destruct (ExecuteArguments _ args st) as [vs st1| | | |]; simpl; try discriminate.
      destruct (Call _ self cls INIT_METHOD vs st1); simpl; try discriminate.
      intros [= <- _]. reflexivity.
    + intros [= <- _]. reflexivity.
  - intros s Hs. destruct s; try contradiction; cbn [Execute].
    + intros [= <- _]. reflexivity.
    + destruct (AppendAll _ _ args st); simpl; try discriminate.
      intros [= <- _]. reflexivity.
    + generalize st. induction statements as [|s0 rest IH]; intros st0; simpl.
      * intros [= <- _]. reflexivity.
      * destruct (Execute order fuel s0 st0); simpl; try discriminate. apply IH.
    + intros [= <- _]. reflexivity.
Qed.

(** A [MethodCall] on something that is not an instance, or on an
    instance that has no such method of that arity, raises its runtime
    error right after the object has been evaluated: no argument is
    evaluated, for every list of arguments. *)
Theorem MethodCall_rejects_before_arguments fuel object method args st obj st1 :
  Execute order fuel object st = Normal obj st1 ->
  (forall a cls, obj = HInstance a cls -> HasMethod cls method (length args) = false) ->
  Execute order (S fuel) (MethodCall object method args) st
  = RuntimeError "not a class instance" st1.
Proof.
  intros Hobj Hno. cbn [Execute]. rewrite Hobj. simpl.
  destruct obj; try reflexivity. simpl. rewrite (Hno self cls eq_refl). reflexivity.
Qed.

End EvaluatorMore.

Section EvaluatorMoreWitnesses.
Import runtime ast.

Lemma Assignment_then_lookup_witness :
  Execute LeftToRight 3 (Assignment "x" (Add (NumericConst 2) (NumericConst 3)))
          sample.empty_state
  = Normal (HNumber 5) (set_var "x" (HNumber 5) sample.empty_state) /\
  Execute LeftToRight 1 (VariableValue ["x"]) (set_var "x" (HNumber 5) sample.empty_state)
  = Normal (HNumber 5) (set_var "x" (HNumber 5) sample.empty_state).
Proof.
  split; [reflexivity|].
  apply (Assignment_then_lookup LeftToRight 2 0 "x"
           (Add (NumericConst 2) (NumericConst 3)) sample.empty_state).
  reflexivity.
Defined.

Lemma FieldAssignment_then_lookup_witness :
  VariableValue_Execute ["a"] ThisClosure sample.two_names
  = Normal (HInstance 1%nat sample.Person) sample.two_names /\
  Execute LeftToRight 2 (FieldAssignment ["a"] "name" (StringConst "Ivan")) sample.two_names
  = Normal (HString "Ivan") (set_field 1%nat "name" (HString "Ivan") sample.two_names) /\
  VariableValue_Execute ["b"] ThisClosure
    (set_field 1%nat "name" (HString "Ivan") sample.two_names)
  = Normal (HInstance 1%nat sample.Person)
      (set_field 1%nat "name" (HString "Ivan") sample.two_names) /\
  VariableValue_Execute (["b"] ++ ["name"]) ThisClosure
    (set_field 1%nat "name" (HString "Ivan") sample.two_names)
  = Normal (HString "Ivan") (set_field 1%nat "name" (HString "Ivan") sample.two_names).
Proof.
  assert (VariableValue_Execute ["a"] ThisClosure sample.two_names
          = Normal (HInstance 1%nat sample.Person) sample.two_names) as Ha
    by (vm_compute; reflexivity).
  assert (Execute LeftToRight 2 (FieldAssignment ["a"] "name" (StringConst "Ivan"))
            sample.two_names
          = Normal (HString "Ivan") (set_field 1%nat "name" (HString "Ivan") sample.two_names))
    as Hassign by (vm_compute; reflexivity).
  assert (VariableValue_Execute ["b"] ThisClosure
            (set_field 1%nat "name" (HString "Ivan") sample.two_names)
          = Normal (HInstance 1%nat sample.Person)
              (set_field 1%nat "name" (HString "Ivan") sample.two_names)) as Hb
    by (vm_compute; reflexivity).
  split; [exact Ha|]. split; [exact Hassign|]. split; [exact Hb|].
  exact (FieldAssignment_then_lookup LeftToRight 1 ["a"] "name" (StringConst "Ivan")
           sample.two_names (HString "Ivan") _ 1%nat sample.Person ["b"] sample.Person
           Ha Hassign Hb).
Defined.

Lemma MethodBody_stops_the_carrier_witness :
  GetMethod sample.Factory "make"
  = Some (mkMethod "make" [] (MethodBody (Compound [Return sample.new_Person]))) /\
  Call (Execute LeftToRight 5) 0%nat sample.Factory "make" [] sample.empty_state
  <> Thrown (HInstance 1%nat sample.Person) sample.empty_state.
Proof.
  split; [reflexivity|].
  apply (proj2 (MethodBody_stops_the_carrier LeftToRight 5
                  (Compound [Return sample.new_Person]) sample.empty_state
                  (HInstance 1%nat sample.Person) sample.empty_state)
           0%nat sample.Factory "make" []
           (mkMethod "make" [] (MethodBody (Compound [Return sample.new_Person]))));
    reflexivity.
Defined.

Lemma result_kinds_witness :
  Execute LeftToRight 3 (Stringify (NumericConst 7)) sample.empty_state
  = Normal (HString "7") sample.empty_state /\
  exists s, HString "7" = HString s.
Proof.
  split; [reflexivity|].
  apply (proj1 (proj2 (proj2 (result_kinds LeftToRight 3 sample.empty_state (HString "7")
                                 sample.empty_state)))
           (NumericConst 7)).
  reflexivity.
Defined.

Lemma MethodCall_rejects_before_arguments_witness :
  Execute LeftToRight 1 (NumericConst 1) sample.empty_state
  = Normal (HNumber 1) sample.empty_state /\
  Execute LeftToRight 2 (MethodCall (NumericConst 1) "f" [sample.side_effect])
          sample.empty_state
  = RuntimeError "not a class instance" sample.empty_state.
Proof.
  split; [reflexivity|].
  apply (MethodCall_rejects_before_arguments LeftToRight 1 (NumericConst 1) "f"
           [sample.side_effect] sample.empty_state (HNumber 1) sample.empty_state).
  - reflexivity.
  - intros a cls H. discriminate.
Defined.

End EvaluatorMoreWitnesses.

Section NothingIsForgotten.
Import runtime ast.

Lemma append_assoc (a b c : string) : (a +:+ b) +:+ c = a +:+ (b +:+ c).
Proof.
  induction a as [|x a IH]; [reflexivity|].
  change (String x ((a +:+ b) +:+ c) = String x (a +:+ (b +:+ c))).
  rewrite IH. reflexivity.
Qed.

Lemma append_empty (a : string) : a +:+ EmptyString = a.
Proof.
  induction a as [|x a IH]; [reflexivity|].
  change (String x (a +:+ EmptyString) = String x a). rewrite IH. reflexivity.
Qed.

Lemma grows_refl st : grows st st.
Proof.
  split; [exists EmptyString; symmetry; apply append_empty | split; auto].
Qed.

Lemma grows_trans st1 st2 st3 : grows st1 st2 -> grows st2 st3 -> grows st1 st3.
Proof.
  intros ([t1 H1] & Hc1 & Hf1) ([t2 H2] & Hc2 & Hf2). split; [|split; auto].
  exists (t1 +:+ t2). rewrite H2, H1. apply append_assoc.
Qed.

Lemma grows_set_var var v st : grows st (set_var var v st).
Proof.
  split; [exists EmptyString; symmetry; apply append_empty | split; auto].
  intros x Hx. unfold set_var, set_closure. simpl.
  destruct (decide (var = x)) as [->|Hne].
  - rewrite lookup_insert_eq. eauto.
  - rewrite lookup_insert_ne by exact Hne. exact Hx.
Qed.

Lemma grows_set_field a field v st : grows st (set_field a field v st).
Proof.
  split; [exists EmptyString; symmetry; apply append_empty | split; auto].
  intros b g Hg. unfold Fields, set_field in *. simpl.
  destruct (decide (a = b)) as [->|Hne].
  - rewrite lookup_insert_eq. simpl.
    destruct (decide (field = g)) as [->|Hne].
    + rewrite lookup_insert_eq. eauto.
    + rewrite lookup_insert_ne by exact Hne. exact Hg.
  - rewrite lookup_insert_ne by exact Hne. exact Hg.
Qed.

Lemma grows_write text st : grows st (write text st).
Proof. split; [exists text; reflexivity | split; auto]. Qed.

Lemma keeps_weaken {A} st st1 (r : Outcome A) :
  grows st st1 -> keeps st1 r -> keeps st r.
Proof. intros H. destruct r; simpl; auto; apply grows_trans, H. Qed.

Lemma keeps_bind {A B} st (r : Outcome A) (k : A -> State -> Outcome B) :
  keeps st r -> (forall a st1, keeps st1 (k a st1)) -> keeps st (bind r k).
Proof.
  intros Hr Hk. destruct r as [a st1| | | |]; simpl in *; auto.
  eapply keeps_weaken; eauto.
Qed.

Lemma keeps_leave_frame {A} closure st (r : Outcome A) :
  keeps (set_closure closure st) r -> keeps st (leave_frame (closure_ st) r).
Proof.
  destruct r as [a st1|h st1|w st1| |]; simpl; auto;
    intros (Hout & _ & Hfields); (split; [exact Hout | split; [auto | exact Hfields]]).
Qed.

Lemma keeps_VariableValue dotted_ids closure_ptr st :
  keeps st (VariableValue_Execute dotted_ids closure_ptr st).
Proof.
  revert closure_ptr. induction dotted_ids as [|id rest IH]; intros closure_ptr;
    [exact I|].
  destruct rest as [|id' rest'].
  - simpl. destruct (deref closure_ptr st !! id); apply grows_refl.
  - rewrite VariableValue_Execute_cons.
    destruct (deref closure_ptr st !! id) as [w|]; [|apply grows_refl].
    destruct (TryAs_ClassInstance w) as [[a c]|]; [apply IH | exact I].
Qed.

Section Helpers.
Variable exec : Exec.
Variable print : ObjectHolder -> string -> State -> Outcome string.
Hypothesis Hexec : forall s st, keeps st (exec s st).
Hypothesis Hprint : forall obj os st, keeps st (print obj os st).

Lemma keeps_ExecuteArguments args st : keeps st (ExecuteArguments exec args st).
Proof.
  revert st. induction args as [|a args IH]; intros st; simpl; [apply grows_refl|].
  apply keeps_bind; [apply Hexec|]. intros v st1.
  apply keeps_bind; [apply IH|]. intros vs st2. apply grows_refl.
Qed.

Lemma keeps_ExecuteStatements statements st :
  keeps st (ExecuteStatements exec statements st).
Proof.
  revert st. induction statements as [|s rest IH]; intros st; simpl; [apply grows_refl|].
  apply keeps_bind; [apply Hexec|]. intros v st1. apply IH.
Qed.

Lemma keeps_AppendByStatement ss s st : keeps st (AppendByStatement exec print ss s st).
Proof.
  unfold AppendByStatement. apply keeps_bind; [apply Hexec|]. intros obj st1.
  destruct (holds obj); [apply Hprint | apply grows_refl].
Qed.

Lemma keeps_AppendRest ss args st : keeps st (AppendRest exec print ss args st).
Proof.
  revert ss st. induction args as [|a args IH]; intros ss st; simpl; [apply grows_refl|].
  apply keeps_bind; [apply keeps_AppendByStatement|]. intros ss1 st1. apply IH.
Qed.

Lemma keeps_AppendAll args st : keeps st (AppendAll exec print args st).
Proof.
  destruct args as [|front rest]; simpl; [apply grows_refl|].
  apply keeps_bind; [apply keeps_AppendByStatement|]. intros ss0 st0.
  apply keeps_AppendRest.
Qed.

Lemma keeps_Call self cls method actual_args st :
  keeps st (Call exec self cls method actual_args st).
Proof.
  unfold Call. destruct (negb _); [apply grows_refl|].
  destruct (GetMethod cls method) as [method_ptr|]; [|exact I].
  destruct (bind_params _ _ _) as [closure|]; [|exact I].
  apply (keeps_leave_frame closure), Hexec.
Qed.

Lemma keeps_as_Bool r st : keeps st (as_Bool r st).
Proof. unfold as_Bool. destruct (TryAs_Bool r); [apply grows_refl | exact I]. Qed.

Lemma keeps_Equal lhs rhs st : keeps st (Equal exec lhs rhs st).
Proof.
  unfold Equal.
  repeat (match goal with
          | |- keeps _ (match ?x with _ => _ end) => destruct x
          | |- keeps _ (if ?b then _ else _) => destruct b
          end);
    try apply grows_refl;
    (apply keeps_bind; [apply keeps_Call | intros; apply keeps_as_Bool]).
Qed.

Lemma keeps_Less lhs rhs st : keeps st (Less exec lhs rhs st).
Proof.
  unfold Less.
  repeat (match goal with
          | |- keeps _ (match ?x with _ => _ end) => destruct x
          | |- keeps _ (if ?b then _ else _) => destruct b
          end);
    try apply grows_refl;
    (apply keeps_bind; [apply keeps_Call | intros; apply keeps_as_Bool]).
Qed.

End Helpers.

Lemma keeps_Own_Number v st : keeps st (Own_Number v st).
Proof. unfold Own_Number. destruct (_ && _); [apply grows_refl | exact I]. Qed.

(** Nothing is forgotten: however a statement ends (it returns, throws a
    holder or raises a runtime error), the output then starts with the
    output before, every variable that was bound in the running closure
    is still bound, and every field that was set is still set; and the
    same holds of printing a value. *)
Theorem Execute_only_adds order fuel :
  (forall s st, keeps st (Execute order fuel s st)) /\
  (forall obj os st, keeps st (PrintObject order fuel obj os st)).
Proof.
  induction fuel as [|fuel [IHexec IHprint]]; [split; intros; exact I|].
  pose proof (keeps_ExecuteArguments _ IHexec) as Hargs.
  pose proof (keeps_ExecuteStatements _ IHexec) as Hstmts.
  pose proof (keeps_AppendByStatement _ _ IHexec IHprint) as Happend.
  pose proof (keeps_AppendAll _ _ IHexec IHprint) as Hall.
  pose proof (keeps_Call _ IHexec) as Hcall.
  pose proof (keeps_Equal _ IHexec) as Hequal.
  pose proof (keeps_Less _ IHexec) as Hless.
  split.
  - intros s st. destruct s; cbn [Execute]; unfold arith;
      try (match goal with
           | |- keeps _ (match Execute _ _ ?b ?st0 with _ => _ end) =>
               pose proof (IHexec b st0) as H;
               destruct (Execute order fuel b st0); simpl in *; now auto
           end);
      repeat (first
        [ exact I
        | apply grows_refl
        | apply grows_set_var
        | apply grows_set_field
        | apply grows_write
        | apply keeps_VariableValue
        | apply keeps_Own_Number
        | apply IHexec
        | apply Hargs | apply Hstmts | apply Happend | apply Hall | apply Hcall
        | apply Hequal | apply Hless
        | apply keeps_bind; [|intros]
        | match goal with
          | |- keeps _ (match ?x with _ => _ end) => destruct x
          | |- keeps _ (if ?b then _ else _) => destruct b
          | |- keeps _ (let _ := _ in _) => cbv zeta
          end ]).
  - intros obj os st. destruct obj; cbn [PrintObject]; try exact I; try apply grows_refl.
    destruct (HasMethod cls "__str__" 0); [|apply grows_refl].
    apply keeps_bind; [apply Hcall|]. intros r st1. apply IHprint.
Qed.

End NothingIsForgotten.

Section FuelIsOnlyFuel.
Import runtime ast.

Lemma settled_refl {A} (r : Outcome A) : settled_by r r.
Proof. right. reflexivity. Qed.

Lemma settled_bind {A B} (r r' : Outcome A) (k k' : A -> State -> Outcome B) :
  settled_by r r' -> (forall a st, settled_by (k a st) (k' a st)) ->
  settled_by (bind r k) (bind r' k').
Proof.
  intros [-> | ->] Hk; [left; reflexivity|].
  destruct r as [a st| | | |]; simpl; [apply Hk | | | |]; apply settled_refl.
Qed.

Lemma settled_leave_frame {A} closure (r r' : Outcome A) :
  settled_by r r' -> settled_by (leave_frame closure r) (leave_frame closure r').
Proof. intros [-> | ->]; [left; reflexivity | apply settled_refl]. Qed.

Lemma settled_MethodBody (r r' : Outcome ObjectHolder) :
  settled_by r r' ->
  settled_by (match r with
              | Thrown holder st1 => Normal holder st1
              | Normal _ st1 => Normal HNone st1
              | RuntimeError what st1 => RuntimeError what st1
              | Undefined => Undefined
              | OutOfFuel => OutOfFuel
              end)
             (match r' with
              | Thrown holder st1 => Normal holder st1
              | Normal _ st1 => Normal HNone st1
              | RuntimeError what st1 => RuntimeError what st1
              | Undefined => Undefined
              | OutOfFuel => OutOfFuel
              end).
Proof. intros [-> | ->]; [left; reflexivity | apply settled_refl]. Qed.

Section Helpers.
Variables exec exec' : Exec.
Variables print print' : ObjectHolder -> string -> State -> Outcome string.
Hypothesis Hexec : forall s st, settled_by (exec s st) (exec' s st).
Hypothesis Hprint : forall obj os st, settled_by (print obj os st) (print' obj os st).

Lemma settled_ExecuteArguments args st :
  settled_by (ExecuteArguments exec args st) (ExecuteArguments exec' args st).
Proof.
  revert st. induction args as [|a args IH]; intros st; simpl; [apply settled_refl|].
  apply settled_bind; [apply Hexec|]. intros v st1.
  apply settled_bind; [apply IH|]. intros vs st2. apply settled_refl.
Qed.

Lemma settled_ExecuteStatements statements st :
  settled_by (ExecuteStatements exec statements st)
             (ExecuteStatements exec' statements st).
Proof.
  revert st. induction statements as [|s rest IH]; intros st; simpl;
    [apply settled_refl|].
  apply settled_bind; [apply Hexec|]. intros v st1. apply IH.
Qed.

Lemma settled_AppendByStatement ss s st :
  settled_by (AppendByStatement exec print ss s st)
             (AppendByStatement exec' print' ss s st).
Proof.
  unfold AppendByStatement. apply settled_bind; [apply Hexec|]. intros obj st1.
  destruct (holds obj); [apply Hprint | apply settled_refl].
Qed.

Lemma settled_AppendRest ss args st :
  settled_by (AppendRest exec print ss args st) (AppendRest exec' print' ss args st).
Proof.
  revert ss st. induction args as [|a args IH]; intros ss st; simpl;
    [apply settled_refl|].
  apply settled_bind; [apply settled_AppendByStatement|]. intros ss1 st1. apply IH.
Qed.

Lemma settled_AppendAll args st :
  settled_by (AppendAll exec print args st) (AppendAll exec' print' args st).
Proof.
  destruct args as [|front rest]; simpl; [apply settled_refl|].
  apply settled_bind; [apply settled_AppendByStatement|]. intros ss0 st0.
  apply settled_AppendRest.
Qed.

Lemma settled_Call self cls method actual_args st :
  settled_by (Call exec self cls method actual_args st)
             (Call exec' self cls method actual_args st).
Proof.
  unfold Call. destruct (negb _); [apply settled_refl|].
  destruct (GetMethod cls method) as [method_ptr|]; [|apply settled_refl].
  destruct (bind_params _ _ _) as [closure|]; [|apply settled_refl].
  apply settled_leave_frame, Hexec.
Qed.

Lemma settled_Equal lhs rhs st :
  settled_by (Equal exec lhs rhs st) (Equal exec' lhs rhs st).
Proof.
  unfold Equal.
  repeat (match goal with
          | |- settled_by (match ?x with _ => _ end) _ => destruct x
          | |- settled_by (if ?b then _ else _) _ => destruct b
          end);
    try apply settled_refl;
    (apply settled_bind; [apply settled_Call | intros; apply settled_refl]).
Qed.

Lemma settled_Less lhs rhs st :
  settled_by (Less exec lhs rhs st) (Less exec' lhs rhs st).
Proof.
  unfold Less.
  repeat (match goal with
          | |- settled_by (match ?x with _ => _ end) _ => destruct x
          | |- settled_by (if ?b then _ else _) _ => destruct b
          end);
    try apply settled_refl;
    (apply settled_bind; [apply settled_Call | intros; apply settled_refl]).
Qed.

End Helpers.

Lemma settled_Execute_PrintObject order fuel :
  forall fuel', (fuel <= fuel')%nat ->
    (forall s st, settled_by (Execute order fuel s st) (Execute order fuel' s st)) /\
    (forall obj os st,
        settled_by (PrintObject order fuel obj os st)
                   (PrintObject order fuel' obj os st)).
Proof.
  induction fuel as [|fuel IH]; intros fuel' Hle;
    [split; intros; left; reflexivity|].
  destruct fuel' as [|fuel']; [lia|].
  destruct (IH fuel' ltac:(lia)) as [IHexec IHprint].
  pose proof (settled_ExecuteArguments _ _ IHexec) as Hargs.
  pose proof (settled_ExecuteStatements _ _ IHexec) as Hstmts.
  pose proof (settled_AppendByStatement _ _ _ _ IHexec IHprint) as Happend.
  pose proof (settled_AppendAll _ _ _ _ IHexec IHprint) as Hall.
  pose proof (settled_Call _ _ IHexec) as Hcall.
  pose proof (settled_Equal _ _ IHexec) as Hequal.
  pose proof (settled_Less _ _ IHexec) as Hless.
  split.
  - intros s st. destruct s; cbn [Execute]; unfold arith;
      try (match goal with
           | |- settled_by (match Execute _ _ ?b ?st0 with _ => _ end) _ =>
               exact (settled_MethodBody _ _ (IHexec b st0))
           end);
      repeat (first
        [ apply settled_refl
        | apply IHexec
        | apply Hargs | apply Hstmts | apply Happend | apply Hall | apply Hcall
        | apply Hequal | apply Hless
        | apply settled_bind; [|intros]
        | match goal with
          | |- settled_by (match ?x with _ => _ end) _ => destruct x
          | |- settled_by (if ?b then _ else _) _ => destruct b
          | |- settled_by (let _ := _ in _) _ => cbv zeta
          end ]).
  - intros obj os st. destruct obj; cbn [PrintObject]; try apply settled_refl.
    destruct (HasMethod cls "__str__" 0); [|apply settled_refl].
    apply settled_bind; [apply Hcall|]. intros r st1. apply IHprint.
Qed.

(** Fuel is only fuel: once a statement has come to an end with some
    amount of fuel (it returned, threw, raised or hit undefined
    behaviour), it comes to the same end, in the same state, with any
    larger amount. *)
Theorem Execute_result_is_stable order fuel extra s st r :
  Execute order fuel s st = r -> r <> OutOfFuel ->
  Execute order (fuel + extra) s st = r.
Proof.
  intros Hr Hne.
  destruct (proj1 (settled_Execute_PrintObject order fuel (fuel + extra) ltac:(lia)) s st)
    as [H | H]; congruence.
Qed.

Lemma Execute_result_is_stable_witness :
  Execute LeftToRight 6 sample.make
    (mkState {[ "f" := HInstance 0%nat sample.Factory ]} ∅ EmptyString)
  = Normal (HInstance 1%nat sample.Person)
      (mkState {[ "f" := HInstance 0%nat sample.Factory ]} ∅ EmptyString) /\
  Execute LeftToRight (6 + 100) sample.make
    (mkState {[ "f" := HInstance 0%nat sample.Factory ]} ∅ EmptyString)
  = Normal (HInstance 1%nat sample.Person)
      (mkState {[ "f" := HInstance 0%nat sample.Factory ]} ∅ EmptyString).
Proof.
  split; [vm_compute; reflexivity|].
  apply (Execute_result_is_stable LeftToRight 6 100 sample.make).
  - vm_compute. reflexivity.
  - discriminate.
Defined.

End FuelIsOnlyFuel.

Section Composition.
Import runtime ast.
Variable order : ArgOrder.

(** De Morgan's laws hold of the evaluator as they stand, short circuit
    and side effects included: [not (a and b)] does what
    [(not a) or (not b)] does, and [not (a or b)] what
    [(not a) and (not b)] does, in result and in state, however [a] and
    [b] end. *)
Theorem De_Morgan fuel a b st :
  Execute order (S (S fuel)) (Not (And a b)) st
  = Execute order (S (S fuel)) (Or (Not a) (Not b)) st /\
  Execute order (S (S fuel)) (Not (Or a b)) st
  = Execute order (S (S fuel)) (And (Not a) (Not b)) st.
Proof.
  split; cbn [Execute];
    destruct (Execute order fuel a st) as [l st1| | | |]; simpl; try reflexivity;
    destruct (IsTrue l); simpl; try reflexivity;
    destruct (Execute order fuel b st1) as [r st2| | | |]; simpl; try reflexivity;
    destruct (IsTrue r); reflexivity.
Qed.

(** A block can be cut in two anywhere: running [Compound (first ++
    second)] is running [Compound first] and then, if that returned,
    [Compound second] in the state it left; if the first part throws or
    raises, the second is not run. *)
Theorem Compound_splits fuel first second st :
  Execute order (S fuel) (Compound (first ++ second)) st =
  do (_v, st1) <- Execute order (S fuel) (Compound first) st;
  Execute order (S fuel) (Compound second) st1.
Proof.
  cbn [Execute]. revert st.
  induction first as [|s first IH]; intros st; simpl; [reflexivity|].
  destruct (Execute order fuel s st) as [v st1| | | |]; simpl; auto.
Qed.

End Composition.

Section MoreWitnesses.
Import runtime ast.

Lemma GetMethod_resolution_order_witness :
  GetMethod (mkClass "C" [] (Some sample.Loud)) "__lt__"
  = Some (mkMethod "__lt__" ["other"]
            (MethodBody (Compound [Print [StringConst "lt"]; Return (BoolConst true)]))) /\
  method_name (mkMethod "__lt__" ["other"]
                 (MethodBody (Compound [Print [StringConst "lt"];
                                        Return (BoolConst true)]))) = "__lt__" /\
  In (mkMethod "__lt__" ["other"]
        (MethodBody (Compound [Print [StringConst "lt"]; Return (BoolConst true)])))
     (ancestry (mkClass "C" [] (Some sample.Loud))).
Proof.
  split; [reflexivity|].
  apply (proj2 (GetMethod_resolution_order (mkClass "C" [] (Some sample.Loud)) "__lt__")).
  reflexivity.
Defined.

End MoreWitnesses.

Section WideIndent.
Import parse.

Lemma MoveToNextToken_mid_line lx :
  current_is Is_Newline (tokens_ lx) = false ->
  exists input', MoveToNextToken lx = Ok (with_input lx input').
Proof.
  intros Hnl. unfold MoveToNextToken. rewrite Hnl, andb_false_r.
  pose proof (MoveToNextToken_loop_total (S (length (input_ lx)))
                (empty (tokens_ lx) || false) (input_ lx) (Nat.lt_succ_diag_r _)) as Htotal.
  destruct (MoveToNextToken_loop _ _ _) as [[space_count input']|]; [|congruence].
  simpl. exists input'. reflexivity.
Qed.

(** The indent stack holds bytes, the current indent a [size_t]: an
    indent of 256 blanks or more is pushed truncated and so never equals
    the top of the stack.  From then on every call of [NextToken] emits
    another [Indent], and no other token is ever reached. *)
Theorem wide_indent_never_resolves fuel k lx top below :
  current_is Is_Newline (tokens_ lx) = false ->
  256 <= current_indent_size_ lx ->
  indent_sizes_ lx = top :: below -> 0 <= top < 256 ->
  exists lx',
    NextToken_times fuel k lx = Ok lx' /\
    tokens_ lx' = tokens_ lx ++ repeat token_type.Indent k.
Proof.
  revert lx top below. induction k as [|k IH]; intros lx top below Hnl Hwide Hstack Htop.
  - exists lx. split; [reflexivity | rewrite app_nil_r; reflexivity].
  - destruct (MoveToNextToken_mid_line lx Hnl) as [input' Hmove].
    cbn [NextToken_times]. unfold NextToken. rewrite Hmove.
    cbn [bind with_input indent_sizes_ current_indent_size_ tokens_ input_].
    rewrite Hstack.
    assert ((current_indent_size_ lx =? top) = false) as -> by (apply Z.eqb_neq; lia).
    cbn [negb]. unfold ParseIndent.
    assert ((current_indent_size_ lx >? top) = true) as ->
      by (rewrite Z.gtb_ltb; apply Z.ltb_lt; lia).
    cbn [bind].
    edestruct (IH (mkLexer input' (current_indent_size_ lx)
                           (to_uint8 (current_indent_size_ lx) :: top :: below)
                           (tokens_ lx ++ [token_type.Indent])))
      as (lx' & Hrun & Htokens); simpl.
    + apply current_is_snoc.
    + exact Hwide.
    + reflexivity.
    + unfold to_uint8. apply Z.mod_pos_bound. lia.
    + exists lx'. split; [exact Hrun|].
      rewrite Htokens. simpl. rewrite <- app_assoc. reflexivity.
Qed.

Lemma wide_indent_never_resolves_witness :
  exists lx lx',
    Lexer_run 0 2 (src "a" ++ nl :: repeat space 256 ++ src "b") = Ok lx /\
    current_is Is_Newline (tokens_ lx) = false /\
    256 <= current_indent_size_ lx /\
    indent_sizes_ lx = [0; 0] /\
    NextToken_times 0 7 lx = Ok lx' /\
    tokens_ lx' = tokens_ lx ++ repeat token_type.Indent 7.
Proof.
  eexists.
  assert (Lexer_run 0 2 (src "a" ++ nl :: repeat space 256 ++ src "b")
          = Ok (mkLexer (src "b") 256 [0; 0]
                        [token_type.Id "a"; token_type.Newline; token_type.Indent]))
    as Hrun by (vm_compute; reflexivity).
  destruct (wide_indent_never_resolves 0 7
              (mkLexer (src "b") 256 [0; 0]
                       [token_type.Id "a"; token_type.Newline; token_type.Indent])
              0 [0]) as (lx' & Htimes & Htokens);
    [reflexivity | simpl; lia | reflexivity | lia |].
  exists lx'. split; [exact Hrun|]. split; [reflexivity|].
  split; [simpl; lia|]. split; [reflexivity|]. split; [exact Htimes | exact Htokens].
Defined.

End WideIndent.

Section Printing.
Import runtime ast.
Variable order : ArgOrder.

Lemma join_with_blanks_cons t rest :
  join_with_blanks (t :: rest) = t +:+ blanks_then rest.
Proof.
  revert t. induction rest as [|u rest IH]; intros t.
  - simpl. symmetry. apply append_empty.
  - change (join_with_blanks (t :: u :: rest))
      with (t +:+ " " +:+ join_with_blanks (u :: rest)).
    rewrite IH. reflexivity.
Qed.

Lemma AppendByStatement_text fuel ss a text st :
  prints_as order fuel a text ->
  AppendByStatement (Execute order fuel) (PrintObject order fuel) ss a st
  = Normal (ss +:+ text) st.
Proof.
  intros (v & Hv & Htext). unfold AppendByStatement. rewrite Hv. simpl.
  destruct fuel as [|fuel]; [specialize (Hv st); discriminate|].
  destruct v; simpl in *; try discriminate; injection Htext as <-; reflexivity.
Qed.

Lemma AppendRest_text fuel args texts :
  Forall2 (prints_as order fuel) args texts ->
  forall ss st,
    AppendRest (Execute order fuel) (PrintObject order fuel) ss args st
    = Normal (ss +:+ blanks_then texts) st.
Proof.
  induction 1 as [|a text args texts Ha _ IH]; intros ss st; simpl.
  - rewrite append_empty. reflexivity.
  - rewrite (AppendByStatement_text fuel (ss +:+ " ") a text st Ha). simpl.
    rewrite IH. f_equal. rewrite !append_assoc. reflexivity.
Qed.


(** [str(x)] is what [print x] prints: if [Stringify arg] returns the
    string [text], then [Print] of that one argument, run from the same
    state, appends [text] and a line feed to the output and ends in the
    same state otherwise. *)
Theorem Stringify_is_what_Print_writes fuel arg st text st1 :
  Execute order (S fuel) (Stringify arg) st = Normal (HString text) st1 ->
  Execute order (S fuel) (Print [arg]) st = Normal HNone (write (text +:+ LF) st1).
Proof.
  cbn [Execute]. unfold AppendAll.
  destruct (AppendByStatement _ _ EmptyString arg st) as [ss st0| | | |]; simpl;
    try discriminate.
  intros [= <- <-]. reflexivity.
Qed.

End Printing.

Section PrintingWitnesses.
Import runtime ast.


Lemma Stringify_is_what_Print_writes_witness :
  Execute LeftToRight 3 (Stringify (Add (NumericConst 2) (NumericConst 3)))
          sample.empty_state
  = Normal (HString "5") sample.empty_state /\
  Execute LeftToRight 3 (Print [Add (NumericConst 2) (NumericConst 3)])
          sample.empty_state
  = Normal HNone (write ("5" +:+ LF) sample.empty_state).
Proof.
  split; [reflexivity|].
  apply (Stringify_is_what_Print_writes LeftToRight 2
           (Add (NumericConst 2) (NumericConst 3)) sample.empty_state "5"
           sample.empty_state).
  reflexivity.
Defined.

End PrintingWitnesses.
